(** * stormtracks: the track association engine, the match aggregator and
    the smoother parameter search of [stormtracks/match.py]

    The Python module is embedded shallowly.  Python objects that the module
    only receives (best tracks, vorticity tracks) are opaque handles with a
    decidable identity and attribute accessors; the helpers it imports from
    [utils] ([dist], [RTSSmoother]) are parameters.  Exceptions are values of
    an error monad. *)

From Stdlib Require Import ZArith List Bool Lia.
From Stdlib Require PrimFloat.
From stdpp Require Import base option list gmap.

Open Scope Z_scope.

(** ** Exceptions *)

Inductive exn : Type :=
| IndexError
| KeyError
| ZeroDivisionError.

Inductive result (A : Type) : Type :=
| Ok (a : A)
| Raise (e : exn).

Arguments Ok {A} a.
Arguments Raise {A} e.

#[global] Instance result_ret : MRet result := fun _ a => Ok a.
#[global] Instance result_bind : MBind result := fun _ _ f r =>
  match r with
  | Ok a => f a
  | Raise e => Raise e
  end.

Definition is_Ok {A} (r : result A) : Prop := exists a, r = Ok a.

(** A [for] loop whose body may raise: the state is threaded through the
    elements in order and the first exception ends the loop. *)
Fixpoint for_each {A S : Type} (body : S -> A -> result S) (l : list A) (s : S)
  : result S :=
  match l with
  | [] => Ok s
  | a :: l' => s' ← body s a; for_each body l' s'
  end.

(** ** Python numbers

    [cum_dist], the distances and the cutoff are Python numbers ([int] literals
    mixed with whatever [dist] returns).  The module only adds, squares,
    divides and compares them. *)

Class PyNum (Num : Type) : Type := {
  num_of_int : Z -> Num;
  num_add : Num -> Num -> Num;
  num_sq : Num -> Num;
  num_gt : Num -> Num -> bool;
  num_lt : Num -> Num -> bool;
  (* [x / n] for a non-zero integer [n] *)
  num_div_int : Num -> Z -> Num;
  (* [x / y]; raises when Python does *)
  num_div : Num -> Num -> result Num
}.

(** Binary64 floats, with exact integers for the literals. *)
Module FloatNum.
Import PrimFloat.

Definition of_pos (p : positive) : float :=
  Pos.iter_op add p one.

Definition of_Z (z : Z) : float :=
  match z with
  | Z0 => zero
  | Zpos p => of_pos p
  | Zneg p => opp (of_pos p)
  end.

Definition fdiv (x y : float) : result float :=
  if eqb y zero then Raise ZeroDivisionError else Ok (div x y).

#[global] Instance float_num : PyNum float := {|
  num_of_int := of_Z;
  num_add := add;
  num_sq := fun x => mul x x;
  num_gt := fun x y => ltb y x;
  num_lt := ltb;
  num_div_int := fun x n => div x (of_Z n);
  num_div := fdiv
|}.
End FloatNum.

(** ** OrderedDict

    An insertion-ordered dictionary: a list of bindings with distinct keys.
    [d[k] = v] overwrites the value bound to [k] where it stands, or appends a
    new binding. *)

Abbreviation odict K V := (list (K * V)) (only parsing).

Fixpoint od_get {K V} `{EqDecision K} (k : K) (d : odict K V) : option V :=
  match d with
  | [] => None
  | (k', v) :: d' => if decide (k = k') then Some v else od_get k d'
  end.

Fixpoint od_set {K V} `{EqDecision K} (k : K) (v : V) (d : odict K V)
  : odict K V :=
  match d with
  | [] => [(k, v)]
  | (k', v') :: d' =>
      if decide (k = k') then (k', v) :: d' else (k', v') :: od_set k v d'
  end.

Definition od_keys {K V} (d : odict K V) : list K := d.*1.
Definition od_values {K V} (d : odict K V) : list V := d.*2.

(* [d[k]] *)
Definition getitem {K V} `{EqDecision K} (d : odict K V) (k : K) : result V :=
  match od_get k d with
  | Some v => Ok v
  | None => Raise KeyError
  end.

(* [l[0]] and [l[-1]] *)
Definition first_item {A} (l : list A) : result A :=
  match l with
  | [] => Raise IndexError
  | a :: _ => Ok a
  end.

Definition last_item {A} (l : list A) : result A :=
  match last l with
  | None => Raise IndexError
  | Some a => Ok a
  end.

(** ** Tracks

    Dates are points on a discrete time axis; a position is a (lon, lat)
    pair of numbers.  The track classes are not part of the module: a best
    track exposes [lons], [lats] and [dates], a vorticity track [dates],
    [vortmax_by_date] (here: the [pos] of the vorticity maximum stored under
    each date, in key order) and [vortmaxes] (their [pos], in order). *)

Abbreviation date := Z (only parsing).
Abbreviation Pos Num := (Num * Num)%type (only parsing).

Class BestTrackAPI (Num BestTrack : Type) : Type := {
  bt_lons : BestTrack -> list Num;
  bt_lats : BestTrack -> list Num;
  bt_dates : BestTrack -> list date
}.

Class VortTrackAPI (Num VortTrack : Type) : Type := {
  vt_dates : VortTrack -> list date;
  vortmax_by_date : VortTrack -> odict date (Pos Num);
  vortmaxes : VortTrack -> list (Pos Num)
}.

(* utils.utils.dist *)
Class Geometry (Num : Type) : Type := {
  dist : Pos Num -> Pos Num -> Num
}.

Definition CUM_DIST_CUTOFF : Z := 100.

(** ** Match *)

Record Match (Num BestTrack VortTrack : Type) : Type := mkMatch {
  best_track : BestTrack;
  vort_track : VortTrack;
  cum_dist : Num;
  overlap : Z;
  is_too_far_away : bool;
  overlap_start : date;
  overlap_end : date
}.

Arguments mkMatch {Num BestTrack VortTrack}.
Arguments best_track {Num BestTrack VortTrack} m.
Arguments vort_track {Num BestTrack VortTrack} m.
Arguments cum_dist {Num BestTrack VortTrack} m.
Arguments overlap {Num BestTrack VortTrack} m.
Arguments is_too_far_away {Num BestTrack VortTrack} m.
Arguments overlap_start {Num BestTrack VortTrack} m.
Arguments overlap_end {Num BestTrack VortTrack} m.

Section Engine.
Context {Num BestTrack VortTrack : Type}.
Context `{!PyNum Num, !Geometry Num}.
Context `{!EqDecision BestTrack, !EqDecision VortTrack}.
Context `{!BestTrackAPI Num BestTrack, !VortTrackAPI Num VortTrack}.

Local Abbreviation Match_t := (Match Num BestTrack VortTrack).

(* attribute assignments on a Match *)
Definition set_overlap (m : Match_t) (n : Z) : Match_t :=
  mkMatch (best_track m) (vort_track m) (cum_dist m) n
          (is_too_far_away m) (overlap_start m) (overlap_end m).

Definition set_cum_dist (m : Match_t) (d : Num) : Match_t :=
  mkMatch (best_track m) (vort_track m) d (overlap m)
          (is_too_far_away m) (overlap_start m) (overlap_end m).

Definition set_is_too_far_away (m : Match_t) (b : bool) : Match_t :=
  mkMatch (best_track m) (vort_track m) (cum_dist m) (overlap m)
          b (overlap_start m) (overlap_end m).

(* Match.__init__ *)
Definition Match_init (bt : BestTrack) (vt : VortTrack) : result Match_t :=
  b0 ← first_item (bt_dates bt);
  v0 ← first_item (vt_dates vt);
  b1 ← last_item (bt_dates bt);
  v1 ← last_item (vt_dates vt);
  mret (mkMatch bt vt (num_of_int 0) 1 false (Z.max b0 v0) (Z.min b1 v1)).

(* Match.av_dist *)
Definition av_dist (m : Match_t) : result Num :=
  if decide (overlap m = 0) then Raise ZeroDivisionError
  else Ok (num_div_int (cum_dist m) (overlap m)).

(** ** The association engine: [match]

    [matches] is the OrderedDict under construction.  A Match object is
    reachable only through its binding, so the in-place updates of the object
    bound to the local [match] are writes to that binding. *)

Local Abbreviation matches_t := (odict (BestTrack * VortTrack) Match_t).

(* lines 55-57, on the Match [m] bound to (bt, vortmax) *)
Definition accumulate (bt : BestTrack) (vortmax : VortTrack)
    (lon lat : Num) (d : date) (matches : matches_t) (m : Match_t)
  : result matches_t :=
  vm_pos ← getitem (vortmax_by_date vortmax) d;
  let m := set_cum_dist m (num_add (cum_dist m) (dist vm_pos (lon, lat))) in
  let m := if num_gt (cum_dist m) (num_of_int CUM_DIST_CUTOFF)
           then set_is_too_far_away m true else m in
  mret (od_set (bt, vortmax) m matches).

(* lines 46-57: the body of the innermost loop *)
Definition visit (bt : BestTrack) (lon lat : Num) (d : date)
    (matches : matches_t) (vortmax : VortTrack) : result matches_t :=
  match od_get (bt, vortmax) matches with
  | Some m =>
      let m := set_overlap m (overlap m + 1) in
      accumulate bt vortmax lon lat d (od_set (bt, vortmax) m matches) m
  | None =>
      m ← Match_init bt vortmax;
      let matches := od_set (bt, vortmax) m matches in
      if is_too_far_away m then mret matches
      else accumulate bt vortmax lon lat d matches m
  end.

(* lines 43-57: one observation of a best track *)
Definition visit_date (vort_tracks_by_date : gmap date (list VortTrack))
    (bt : BestTrack) (matches : matches_t) (obs : Num * (Num * date))
  : result matches_t :=
  let '(lon, (lat, d)) := obs in
  match vort_tracks_by_date !! d with
  | Some vort_tracks => for_each (visit bt lon lat d) vort_tracks matches
  | None => mret matches
  end.

(* zip(best_track.lons, best_track.lats, best_track.dates) *)
Definition observations (bt : BestTrack) : list (Num * (Num * date)) :=
  zip (bt_lons bt) (zip (bt_lats bt) (bt_dates bt)).

Definition visit_track (vort_tracks_by_date : gmap date (list VortTrack))
    (matches : matches_t) (bt : BestTrack) : result matches_t :=
  for_each (visit_date vort_tracks_by_date bt) (observations bt) matches.

Definition match_ (vort_tracks_by_date : gmap date (list VortTrack))
    (best_tracks : list BestTrack) : result matches_t :=
  for_each (visit_track vort_tracks_by_date) best_tracks [].

End Engine.

Abbreviation matches_t Num BestTrack VortTrack :=
  (odict (BestTrack * VortTrack) (Match Num BestTrack VortTrack)) (only parsing).

(** ** The match aggregator: [combined_match]

    [all_matches] is a sequence of sequences of Match objects (the loop reads
    [match.best_track] of every item): for an output of the engine, its
    values.  [combined_matches] is a plain dictionary keyed by best track;
    indexing it with a best track that was not supplied raises KeyError. *)

Section Aggregator.
Context {Num BestTrack VortTrack : Type}.
Context `{Countable BestTrack}.

Local Abbreviation Match_t := (Match Num BestTrack VortTrack).

(* lines 72-73 *)
Definition empty_lists (best_tracks : list BestTrack)
  : gmap BestTrack (list Match_t) :=
  foldl (fun cm bt => <[bt := []]> cm) ∅ best_tracks.

(* line 77 *)
Definition append_match (cm : gmap BestTrack (list Match_t)) (m : Match_t)
  : result (gmap BestTrack (list Match_t)) :=
  match cm !! best_track m with
  | Some l => Ok (<[best_track m := l ++ [m]]> cm)
  | None => Raise KeyError
  end.

Definition combined_match (best_tracks : list BestTrack)
    (all_matches : list (list Match_t))
  : result (gmap BestTrack (list Match_t)) :=
  for_each (fun cm matches => for_each append_match matches cm)
           all_matches (empty_lists best_tracks).

(* all the Matches of a combined mapping *)
Definition flatten (cm : gmap BestTrack (list Match_t)) : list Match_t :=
  mjoin (map_to_list cm).*2.

(* [cm] has the best tracks [bts] as its keys, and holds under each of them
   the Matches of [l] that refer to it, in the order of [l] *)
Definition grouped_by_reference (bts : list BestTrack) (l : list Match_t)
    (cm : gmap BestTrack (list Match_t)) : Prop :=
  forall bt, cm !! bt =
    if decide (bt ∈ bts) then Some (filter (fun m => best_track m = bt) l)
    else None.

End Aggregator.

(** ** The smoother parameter search: [_cum_dist] and [_optimize]

    The calls to the plotting library draw and return nothing that the search
    reads; they are left out.  What the search prints is kept. *)

Inductive mode : Type := smoothed | filtered.

(* utils.kalman.RTSSmoother(F, H).process_data(pos, x, P, Q * q, R * r), for
   the fixed F, H, P, Q and R of [_optimize] and x built from the first
   position: the positions [:, :2, 0] of the smoothed states it returns and of
   the [filtered_xs] it leaves behind *)
Class Smoother (Num : Type) : Type := {
  process_data :
    list (Pos Num) -> Pos Num -> Num -> Num -> list (Pos Num) * list (Pos Num)
}.

(* np.arange(1e-4, 1e-2, 5e-4) and np.arange(1e-2, 1e0, 5e-2) *)
Class Grid (Num : Type) : Type := {
  q_params : list Num;
  r_params : list Num
}.

(* what the search writes to standard output *)
Inductive line (Num : Type) : Type :=
| baseline_line (d : Num)
| new_optimum_line (p : Num * Num * mode)
| min_dist_line (d : Num)
| ratio_line (x : Num).

Arguments baseline_line {Num} d.
Arguments new_optimum_line {Num} p.
Arguments min_dist_line {Num} d.
Arguments ratio_line {Num} x.

(* the value of a call that ends without a return statement *)
Inductive NoneType : Type := PyNone.

(* the locals of [_optimize] that the grid loop reads and writes *)
Record search_state (Num : Type) : Type := mkSearch {
  smoothed_dict : odict date (Pos Num);
  filtered_dict : odict date (Pos Num);
  min_d : Num;
  optimum_param : option (Num * Num * mode);
  stdout : list (line Num)
}.

Arguments mkSearch {Num}.
Arguments smoothed_dict {Num} s.
Arguments filtered_dict {Num} s.
Arguments min_d {Num} s.
Arguments optimum_param {Num} s.
Arguments stdout {Num} s.

Section Search.
Context {Num BestTrack VortTrack : Type}.
Context `{!PyNum Num, !Geometry Num, !Smoother Num, !Grid Num}.
Context `{!BestTrackAPI Num BestTrack, !VortTrackAPI Num VortTrack}.

(* lines 87-91: a date missing from the dictionary is skipped *)
Definition cum_dist_step (vbd : odict date (Pos Num)) (acc : Num * Z)
    (obs : Num * (Num * date)) : Num * Z :=
  let '(lon, (lat, d)) := obs in
  match od_get d vbd with
  | Some p => (num_add acc.1 (num_sq (dist p (lon, lat))), acc.2 + 1)
  | None => acc
  end.

Definition _cum_dist (bt : BestTrack) (vbd : odict date (Pos Num)) : Num * Z :=
  foldl (cum_dist_step vbd) (num_of_int 0, 0) (observations bt).

(* [a[i]] on an array *)
Definition item {A} (a : list A) (i : nat) : result A :=
  match a !! i with
  | Some x => Ok x
  | None => Raise IndexError
  end.

(* lines 167-173 *)
Definition fill_dicts (smoothed_pos filtered_pos : list (Pos Num))
    (dicts : odict date (Pos Num) * odict date (Pos Num)) (id : nat * date)
  : result (odict date (Pos Num) * odict date (Pos Num)) :=
  sp ← item smoothed_pos id.1;
  fp ← item filtered_pos id.1;
  mret (od_set id.2 sp dicts.1, od_set id.2 fp dicts.2).

Definition enumerate {A} (l : list A) : list (nat * A) :=
  zip (seq 0 (length l)) l.

(* lines 163-176: the smoother is run, the two dictionaries are refilled and
   the distance is recomputed on each; [overlap] is bound twice, the count of
   the filtered dictionary is the one that stays *)
Definition rescore (bt : BestTrack) (vt : VortTrack) (pos : list (Pos Num))
    (x : Pos Num) (q r : Num) (st : search_state Num)
  : result (search_state Num * (Num * Num * Z)) :=
  let '(smoothed_pos, filtered_pos) := process_data pos x q r in
  '(sd, fd) ← for_each (fill_dicts smoothed_pos filtered_pos)
                       (enumerate (od_keys (vortmax_by_date vt)))
                       (smoothed_dict st, filtered_dict st);
  let '(smoothed_new_d, overlap) := _cum_dist bt sd in
  let '(filtered_new_d, overlap) := _cum_dist bt fd in
  mret (mkSearch sd fd (min_d st) (optimum_param st) (stdout st),
        (smoothed_new_d, filtered_new_d, overlap)).

(* the assignments of an adopted optimum, with what they print *)
Definition adopt (st : search_state Num) (p : Num * Num * mode) (new_d : Num)
    (out : list (line Num)) : search_state Num :=
  mkSearch (smoothed_dict st) (filtered_dict st) new_d (Some p)
           (stdout st ++ out).

(* lines 178-187 *)
Definition smoothed_check (overlap : Z) (q r smoothed_new_d : Num)
    (st : search_state Num) : search_state Num :=
  if (6 <=? overlap) && num_lt smoothed_new_d (min_d st)
  then adopt st (q, r, smoothed) smoothed_new_d
             [new_optimum_line (q, r, smoothed); min_dist_line smoothed_new_d]
  else st.

(* lines 188-196 *)
Definition filtered_check (overlap : Z) (q r filtered_new_d : Num)
    (st : search_state Num) : search_state Num :=
  if (6 <=? overlap) && num_lt filtered_new_d (min_d st)
  then adopt st (q, r, filtered) filtered_new_d
             [new_optimum_line (q, r, filtered)]
  else st.

(* lines 163-196: one grid point *)
Definition grid_point (bt : BestTrack) (vt : VortTrack) (pos : list (Pos Num))
    (x : Pos Num) (q : Num) (st : search_state Num) (r : Num)
  : result (search_state Num) :=
  '(st, (smoothed_new_d, filtered_new_d, overlap)) ←
    rescore bt vt pos x q r st;
  let st := smoothed_check overlap q r smoothed_new_d st in
  let st := filtered_check overlap q r filtered_new_d st in
  mret st.

(* lines 161-196 *)
Definition search (bt : BestTrack) (vt : VortTrack) (pos : list (Pos Num))
    (x : Pos Num) (st : search_state Num) : result (search_state Num) :=
  for_each (fun st q => for_each (grid_point bt vt pos x q) r_params st)
           q_params st.

(* lines 141-150: the locals before the grid loop *)
Definition initial_state (bt : BestTrack) (vt : VortTrack) : search_state Num :=
  let '(baseline_dist, overlap) := _cum_dist bt (vortmax_by_date vt) in
  mkSearch [] [] baseline_dist None [baseline_line baseline_dist].

Definition _optimize (bt : BestTrack) (vt : VortTrack)
  : result (NoneType * list (line Num)) :=
  let '(baseline_dist, overlap) := _cum_dist bt (vortmax_by_date vt) in
  let pos := vortmaxes vt in
  let st := initial_state bt vt in
  x ← first_item pos;
  st ← search bt vt pos x st;
  ratio ← num_div (min_d st) baseline_dist;
  mret (PyNone, stdout st ++ [ratio_line ratio]).

(** *** The grid points of a search, one by one *)

(* the (q_param, r_param) pairs in the order of the nested loops *)
Definition grid : list (Num * Num) :=
  q ← q_params; r ← r_params; [(q, r)].

(* the states a loop goes through, one per element *)
Fixpoint for_each_states {A S : Type} (body : S -> A -> result S)
    (l : list A) (s : S) : result (list S) :=
  match l with
  | [] => Ok []
  | a :: l' =>
      s' ← body s a; tr ← for_each_states body l' s'; mret (s' :: tr)
  end.

(* the locals after each grid point *)
Definition grid_states (bt : BestTrack) (vt : VortTrack) (pos : list (Pos Num))
    (x : Pos Num) (st : search_state Num) : result (list (search_state Num)) :=
  for_each_states (fun st qr => grid_point bt vt pos x qr.1 st qr.2) grid st.

(* the overlap recomputed at the grid point that left [st] *)
Definition recomputed_overlap (bt : BestTrack) (st : search_state Num) : Z :=
  (_cum_dist bt (filtered_dict st)).2.

(* the last optimum announced on standard output *)
Definition last_optimum_printed (out : list (line Num))
  : option (Num * Num * mode) :=
  last (omap (fun l => match l with
                       | new_optimum_line p => Some p
                       | _ => None
                       end) out).

End Search.

(** ** The joint visits of a run

    The iterations of the innermost loop of [match], in execution order: one
    per best track of the argument list, observation of that track and
    vorticity track listed under the observation's date. *)

Record joint_visit (Num BestTrack VortTrack : Type) : Type := mkVisit {
  jv_best : BestTrack;
  jv_lon : Num;
  jv_lat : Num;
  jv_date : date;
  jv_vort : VortTrack
}.

Arguments mkVisit {Num BestTrack VortTrack}.
Arguments jv_best {Num BestTrack VortTrack} j.
Arguments jv_lon {Num BestTrack VortTrack} j.
Arguments jv_lat {Num BestTrack VortTrack} j.
Arguments jv_date {Num BestTrack VortTrack} j.
Arguments jv_vort {Num BestTrack VortTrack} j.

Section Visits.
Context {Num BestTrack VortTrack : Type}.
Context `{!PyNum Num, !Geometry Num}.
Context `{!EqDecision BestTrack, !EqDecision VortTrack}.
Context `{!BestTrackAPI Num BestTrack, !VortTrackAPI Num VortTrack}.

Local Abbreviation Match_t := (Match Num BestTrack VortTrack).
Local Abbreviation visit_t := (joint_visit Num BestTrack VortTrack).

Definition visits_of_date (idx : gmap date (list VortTrack)) (bt : BestTrack)
    (obs : Num * (Num * date)) : list visit_t :=
  mkVisit bt obs.1 obs.2.1 obs.2.2 <$> default [] (idx !! obs.2.2).

Definition visits_of_track (idx : gmap date (list VortTrack)) (bt : BestTrack)
  : list visit_t :=
  observations bt ≫= visits_of_date idx bt.

Definition joint_visits (idx : gmap date (list VortTrack))
    (best_tracks : list BestTrack) : list visit_t :=
  best_tracks ≫= visits_of_track idx.

Definition jv_key (j : visit_t) : BestTrack * VortTrack :=
  (jv_best j, jv_vort j).

(* the joint visits of one (best track, vorticity track) pair *)
Definition pair_visits (idx : gmap date (list VortTrack))
    (best_tracks : list BestTrack) (bt : BestTrack) (vt : VortTrack)
  : list visit_t :=
  filter (fun j => jv_key j = (bt, vt)) (joint_visits idx best_tracks).

(* the distance a joint visit contributes, when the vorticity track has a
   position at the date *)
Definition visit_dist (j : visit_t) : option Num :=
  p ← od_get (jv_date j) (vortmax_by_date (jv_vort j));
  Some (dist p (jv_lon j, jv_lat j)).

(* the running totals after each of a sequence of contributions *)
Fixpoint running_totals (c : Num) (ds : list Num) : list Num :=
  match ds with
  | [] => []
  | d :: ds' => num_add c d :: running_totals (num_add c d) ds'
  end.

Definition exceeds_cutoff (c : Num) : bool :=
  num_gt c (num_of_int CUM_DIST_CUTOFF).

(* every vorticity track listed under a date has a position at that date,
   and a non-empty list of dates *)
Definition index_consistent (idx : gmap date (list VortTrack)) : Prop :=
  forall d vts vt, idx !! d = Some vts -> vt ∈ vts ->
    vt_dates vt <> [] /\ is_Some (od_get d (vortmax_by_date vt)).

(* what one joint visit does to the Match of its pair, if any *)
Definition visit_match (j : visit_t) (om : option Match_t) : result Match_t :=
  m ← match om with
      | Some m => Ok (set_overlap m (overlap m + 1))
      | None => Match_init (jv_best j) (jv_vort j)
      end;
  p ← getitem (vortmax_by_date (jv_vort j)) (jv_date j);
  let c := num_add (cum_dist m) (dist p (jv_lon j, jv_lat j)) in
  mret (mkMatch (best_track m) (vort_track m) c (overlap m)
                (is_too_far_away m || exceeds_cutoff c)
                (overlap_start m) (overlap_end m)).

Definition visit_jv (matches : matches_t Num BestTrack VortTrack) (j : visit_t)
  : result (matches_t Num BestTrack VortTrack) :=
  visit (jv_best j) (jv_lon j) (jv_lat j) (jv_date j) matches (jv_vort j).

(* the reference track and the candidate share a date: some observation of
   the reference track, as a member of the list, finds the candidate in the
   index *)
Definition share_a_date (idx : gmap date (list VortTrack))
    (best_tracks : list BestTrack) (bt : BestTrack) (vt : VortTrack) : Prop :=
  exists obs vts, bt ∈ best_tracks /\ obs ∈ observations bt /\
    idx !! obs.2.2 = Some vts /\ vt ∈ vts.

Definition totals (ds : list Num) : list Num :=
  running_totals (num_of_int 0) ds.

(* the Match of a pair whose joint visits contributed [ds], in this order *)
Definition match_after (bt : BestTrack) (vt : VortTrack) (s e : date)
    (ds : list Num) : Match_t :=
  mkMatch bt vt (default (num_of_int 0) (last (totals ds)))
          (Z.of_nat (length ds)) (existsb exceeds_cutoff (totals ds)) s e.

(* a joint visit that raises nothing *)
Definition visit_ok (j : visit_t) : Prop :=
  bt_dates (jv_best j) <> [] /\ vt_dates (jv_vort j) <> [] /\
  is_Some (visit_dist j).

(* what a run over the joint visits [js] leaves under the key (bt, vt) *)
Definition pair_outcome (js : list visit_t) (bt : BestTrack) (vt : VortTrack)
    (om : option Match_t) : Prop :=
  let pv := filter (fun j => jv_key j = (bt, vt)) js in
  match om with
  | None => pv = []
  | Some m => pv <> [] /\ exists m0 ds,
      Match_init bt vt = Ok m0 /\ mapM visit_dist pv = Some ds /\
      m = match_after bt vt (overlap_start m0) (overlap_end m0) ds
  end.

End Visits.


(** * Sample data

    A small archive in binary64 arithmetic: three best tracks and three
    vorticity tracks, numbered. *)

Module Sample.
Import PrimFloat FloatNum.

(** Modelled from the spec: [utils.utils.dist] is not among the sources; the
    geometry utility is "a distance function between two planar (longitude,
    latitude) points", taken here as the Euclidean distance. *)
Definition euclid (p q : float * float) : float :=
  sqrt (add (mul (sub p.1 q.1) (sub p.1 q.1)) (mul (sub p.2 q.2) (sub p.2 q.2))).

#[export] Instance plane : Geometry float := {| dist := euclid |}.

(* best track 0: three observations along the equator; best track 1: no
   observation at all; best track 2: a single observation; best track 3: six
   observations along the equator *)
#[export] Instance best_tracks : BestTrackAPI float nat := {|
  bt_lons := fun bt =>
    match bt with
    | 0%nat => [0; 1; 2]
    | 2%nat => [0]
    | 3%nat => [0; 1; 2; 3; 4; 5]
    | _ => []
    end%float;
  bt_lats := fun bt =>
    match bt with
    | 0%nat => [0; 0; 0]
    | 2%nat => [0]
    | 3%nat => [0; 0; 0; 0; 0; 0]
    | _ => []
    end%float;
  bt_dates := fun bt =>
    match bt with
    | 0%nat => [1; 2; 3]
    | 2%nat => [5]
    | 3%nat => [11; 12; 13; 14; 15; 16]
    | _ => []
    end
|}.

(* vorticity track 0 follows best track 0, half a unit off at date 2;
   vorticity track 1 is 200 units away from best track 2 at date 5;
   vorticity track 2 has no dates; vorticity track 3 runs two units north of
   best track 3 *)
#[export] Instance vort_tracks : VortTrackAPI float nat := {|
  vt_dates := fun vt =>
    match vt with
    | 0%nat => [1; 2; 3]
    | 1%nat => [5]
    | 3%nat => [11; 12; 13; 14; 15; 16]
    | _ => []
    end;
  vortmax_by_date := fun vt =>
    match vt with
    | 0%nat => zip [1; 2; 3] [(0, 0); (1, 0.5); (2, 0)]%float
    | 1%nat => zip [5] [(200, 0)]%float
    | 3%nat => zip [11; 12; 13; 14; 15; 16]
                   [(0, 2); (1, 2); (2, 2); (3, 2); (4, 2); (5, 2)]%float
    | _ => []
    end;
  vortmaxes := fun vt =>
    match vt with
    | 0%nat => [(0, 0); (1, 0.5); (2, 0)]
    | 1%nat => [(200, 0)]
    | 3%nat => [(0, 2); (1, 2); (2, 2); (3, 2); (4, 2); (5, 2)]
    | _ => []
    end%float
|}.

Definition index : gmap Z (list nat) :=
  list_to_map [(1, [0%nat]); (2, [0%nat]); (3, [0%nat]); (5, [1%nat])].

(* vorticity track 2, which has no dates, listed under date 5 *)
Definition broken_index : gmap Z (list nat) := <[5 := [2%nat]]> index.

(* what the engine leaves after the visit of best track 2 and vorticity
   track 1 at date 5: a flagged Match *)
Definition flagged_matches : list (nat * nat * Match float nat nat) :=
  [((2%nat, 1%nat), mkMatch 2%nat 1%nat 200%float 1 true 5 5)].


(* a stand-in for the smoother: it pulls every latitude towards the equator,
   by the factor [r] in the smoothed positions and by the factor [q] in the
   filtered ones *)
#[export] Instance pull : Smoother float := {|
  process_data := fun pos _ q r =>
    ((fun p : float * float => (p.1, mul p.2 r)) <$> pos,
     (fun p : float * float => (p.1, mul p.2 q)) <$> pos)
|}.

#[export] Instance coarse_grid : Grid float := {|
  q_params := [0.75]%float;
  r_params := [0.5; 0.25]%float
|}.

End Sample.

(** * pyro_cluster/pyro_task.py: the task schedule

    One task per year and ensemble member, each with a status; the schedule
    hands out the next outstanding task and records the status reported
    back. *)

From stdpp Require Import strings pretty.

Open Scope Z_scope.

Module Pyro.

Inductive exn : Type :=
| Exception (msg : string)
| KeyError
| IndexError.

Inductive outcome (A : Type) : Type :=
| Return (a : A)
| Throw (e : exn).

Arguments Return {A} a.
Arguments Throw {A} e.

#[global] Instance outcome_ret : MRet outcome := fun _ a => Return a.
#[global] Instance outcome_bind : MBind outcome := fun _ _ f r =>
  match r with
  | Return a => f a
  | Throw e => Throw e
  end.

(* the dictionary of status symbols, in the order of its display *)
Definition STATUSES : list (string * string) :=
  [("outstanding", "-"); ("working", "W"); ("complete", "+");
   ("failure", "F"); ("timeout", "T")]%string.

Definition TASKS : list string := ["vort_track"%string].

Record PyroTask : Type := mkTask {
  year : Z;
  ensemble_member : Z;
  _task : string;
  _status : string
}.

(* the setter of [task] *)
Definition set_task (t : PyroTask) (value : string) : outcome PyroTask :=
  if decide (value ∈ TASKS)
  then Return (mkTask (year t) (ensemble_member t) value (_status t))
  else Throw (Exception ("Task " +:+ value +:+ " not recognised")).

(* the setter of [status] *)
Definition set_status (t : PyroTask) (value : string) : outcome PyroTask :=
  if decide (value ∈ STATUSES.*1)
  then Return (mkTask (year t) (ensemble_member t) (_task t) value)
  else Throw (Exception ("Status " +:+ value +:+ " not recognised")).

(* PyroTask.__init__; the two attributes behind the properties do not exist
   before their setters have run *)
Definition PyroTask_init (y em : Z) (task : string) : outcome PyroTask :=
  t ← set_task (mkTask y em "" "") task;
  set_status t "outstanding".

(* range(a, b) *)
Definition range (a b : Z) : list Z := seqZ a (b - a).

(* [l[i]] on a list: a negative index counts from the end *)
Definition position {A} (l : list A) (i : Z) : option nat :=
  let n := Z.of_nat (length l) in
  if decide (0 <= i < n)%Z then Some (Z.to_nat i)
  else if decide (- n <= i < 0)%Z then Some (Z.to_nat (n + i))
  else None.

Definition list_item {A} (l : list A) (i : Z) : outcome A :=
  match position l i ≫= (l !!.) with
  | Some a => Return a
  | None => Throw IndexError
  end.

Definition dict_item {V} (d : odict Z V) (k : Z) : outcome V :=
  match od_get k d with
  | Some v => Return v
  | None => Throw KeyError
  end.

Record PyroTaskSchedule : Type := mkSchedule {
  start_year : Z;
  end_year : Z;
  num_ensemble_members : Z;
  _schedule : odict Z (list PyroTask)
}.

(* a [for] loop whose body may raise *)
Fixpoint loop {A S : Type} (body : S -> A -> outcome S) (l : list A) (s : S)
  : outcome S :=
  match l with
  | [] => Return s
  | a :: l' => s' ← body s a; loop body l' s'
  end.

(* lines 52-54: the list of one year, filled member by member *)
Definition year_tasks (y n : Z) : outcome (list PyroTask) :=
  loop (fun tasks em => t ← PyroTask_init y em "vort_track";
                        mret (tasks ++ [t]))
       (range 0 n) [].

(* PyroTaskSchedule.__init__ *)
Definition PyroTaskSchedule_init (start_year end_year num_ensemble_members : Z)
  : outcome PyroTaskSchedule :=
  sch ← loop (fun sch y => tasks ← year_tasks y num_ensemble_members;
                           mret (od_set y tasks sch))
             (range start_year (end_year + 1)) [];
  mret (mkSchedule start_year end_year num_ensemble_members sch).

(* the (year, ensemble member) pairs in the order of the nested loops *)
Definition cells (s : PyroTaskSchedule) : list (Z * Z) :=
  y ← range (start_year s) (end_year s + 1);
  em ← range 0 (num_ensemble_members s);
  [(y, em)].

(* [self._schedule[year][em]] *)
Definition task_at (s : PyroTaskSchedule) (cell : Z * Z) : outcome PyroTask :=
  tasks ← dict_item (_schedule s) cell.1;
  list_item tasks cell.2.

(* lines 58-63: the loops end at the first outstanding task *)
Fixpoint first_outstanding (s : PyroTaskSchedule) (cs : list (Z * Z))
  : outcome (option PyroTask) :=
  match cs with
  | [] => Return None
  | c :: cs' =>
      task ← task_at s c;
      if decide (_status task = "outstanding") then Return (Some task)
      else first_outstanding s cs'
  end.

Definition get_next_outstanding (s : PyroTaskSchedule)
  : outcome (option PyroTask) :=
  first_outstanding s (cells s).

(* line 66: the status of the addressed task is set in place *)
Definition update_task_status (s : PyroTaskSchedule) (task : PyroTask)
  : outcome PyroTaskSchedule :=
  tasks ← dict_item (_schedule s) (year task);
  match position tasks (ensemble_member task) with
  | Some i =>
      target ← list_item tasks (ensemble_member task);
      target ← set_status target (_status task);
      mret (mkSchedule (start_year s) (end_year s) (num_ensemble_members s)
                       (od_set (year task) (<[i := target]> tasks)
                               (_schedule s)))
  | None => Throw IndexError
  end.

(* str.rjust: what the width of a format field adds *)
Definition rjust (width : nat) (s : string) : string :=
  String.concat "" (replicate (width - String.length s) " "%string) +:+ s.

(* '{0:4d}: '.format(year) *)
Definition year_label (y : Z) : string := rjust 4 (pretty y) +:+ ": ".

(* STATUSES[status] *)
Definition status_symbol (status : string) : outcome string :=
  match od_get status STATUSES with
  | Some c => Return c
  | None => Throw KeyError
  end.

Definition get_progress_for_year (s : PyroTaskSchedule) (y : Z)
    (include_year : bool) : outcome string :=
  tasks ← dict_item (_schedule s) y;
  let progress := if include_year then [year_label y] else [] in
  progress ← loop (fun progress task => c ← status_symbol (_status task);
                                       mret (progress ++ [c]))
                  tasks progress;
  mret (String.concat "" progress).

Definition newline : string := String (Ascii.ascii_of_nat 10) "".

(* [years] is None, or a list; an empty list stands for all years too *)
Definition get_progress (s : PyroTaskSchedule) (years : option (list Z))
    (include_year : bool) : outcome string :=
  let years := match years with
               | None | Some [] => range (start_year s) (end_year s + 1)
               | Some ys => ys
               end in
  progress ← loop (fun progress y => p ← get_progress_for_year s y include_year;
                                    mret (progress ++ [p; newline]))
                  years [];
  mret (String.concat "" progress).

(** *** What a schedule holds *)

(* the task the constructor makes for a year and an ensemble member *)
Definition fresh_task (y em : Z) : PyroTask :=
  mkTask y em "vort_track" "outstanding".

(* every cell of the nested loops holds a task, filed under its own year and
   ensemble member *)
Definition well_formed (s : PyroTaskSchedule) : Prop :=
  forall c, c ∈ cells s ->
    exists t, task_at s c = Return t /\ year t = c.1 /\ ensemble_member t = c.2.

Definition is_outstanding (s : PyroTaskSchedule) (c : Z * Z) : Prop :=
  exists t, task_at s c = Return t /\ _status t = "outstanding"%string.

#[global] Instance is_outstanding_dec s c : Decision (is_outstanding s c).
Proof.
  unfold is_outstanding. destruct (task_at s c) as [t|e].
  - destruct (decide (_status t = "outstanding"%string)) as [Hs|Hs].
    + left. by exists t.
    + right. intros (t' & [= <-] & Hs'). done.
  - right. by intros (t' & ? & _).
Defined.

(* the number of cells that hold an outstanding task *)
Definition count_outstanding (s : PyroTaskSchedule) : nat :=
  length (filter (is_outstanding s) (cells s)).

(** *** A sample schedule: two years, two ensemble members *)

Definition sample_schedule : PyroTaskSchedule :=
  mkSchedule 2000 2001 2
    [(2000, [fresh_task 2000 0; fresh_task 2000 1]);
     (2001, [fresh_task 2001 0; fresh_task 2001 1])].

End Pyro.
(** * Properties *)

(** ** The error monad and loops *)

(* an equation between results of the monad, taken apart *)
Ltac ok_inv H := unfold mret, result_ret in H; simplify_eq/=.

Lemma for_each_app {A S} (body : S -> A -> result S) (l1 l2 : list A) (s : S) :
  for_each body (l1 ++ l2) s = s' ← for_each body l1 s; for_each body l2 s'.
Proof.
  revert s. induction l1 as [|a l1 IH]; intros s; simpl; [done|].
  destruct (body s a) as [s'|e]; simpl; [apply IH | done].
Qed.

Lemma for_each_bind {A B S} (body : S -> B -> result S) (f : A -> list B)
    (l : list A) (s : S) :
  for_each (fun s a => for_each body (f a) s) l s = for_each body (l ≫= f) s.
Proof.
  revert s. induction l as [|a l IH]; intros s; simpl; [done|].
  rewrite for_each_app. destruct (for_each body (f a) s); simpl; [apply IH | done].
Qed.

Lemma for_each_ext {A S} (f g : S -> A -> result S) (l : list A) (s : S) :
  (forall s a, a ∈ l -> f s a = g s a) -> for_each f l s = for_each g l s.
Proof.
  revert s. induction l as [|a l IH]; intros s Hfg; simpl; [done|].
  rewrite Hfg by left. destruct (g s a); simpl; [|done].
  apply IH. intros s' b Hb. apply Hfg. by right.
Qed.

Lemma for_each_inv {A S} (P : S -> Prop) (body : S -> A -> result S)
    (l : list A) (s s' : S) :
  (forall s a s', a ∈ l -> P s -> body s a = Ok s' -> P s') ->
  P s -> for_each body l s = Ok s' -> P s'.
Proof.
  revert s. induction l as [|a l IH]; intros s Hstep Hs; simpl.
  - by intros [= <-].
  - destruct (body s a) as [s1|] eqn:Hb; simpl; [|done].
    apply IH; [|by eapply Hstep; [left|..]].
    intros ????. apply Hstep. by right.
Qed.

(** ** OrderedDict *)

Section OrderedDictFacts.
Context {K V : Type} `{EqDecision K}.
Implicit Types (k : K) (v : V) (d : odict K V).

Lemma od_get_set k k' v d :
  od_get k' (od_set k v d) = if decide (k' = k) then Some v else od_get k' d.
Proof.
  induction d as [|[k0 v0] d IH]; simpl.
  - by destruct (decide (k' = k)).
  - destruct (decide (k = k0)) as [->|Hne]; simpl.
    + by destruct (decide (k' = k0)).
    + destruct (decide (k' = k0)) as [->|]; [|done].
      by rewrite decide_False by done.
Qed.

Lemma od_set_set k v1 v2 d : od_set k v2 (od_set k v1 d) = od_set k v2 d.
Proof.
  induction d as [|[k0 v0] d IH]; simpl.
  - by rewrite decide_True.
  - destruct (decide (k = k0)) as [->|Hne]; simpl.
    + by rewrite decide_True.
    + rewrite decide_False by done. by rewrite IH.
Qed.

Lemma od_get_None k d : od_get k d = None <-> k ∉ od_keys d.
Proof.
  unfold od_keys. induction d as [|[k0 v0] d IH]; simpl.
  - split; [intros _; apply not_elem_of_nil | done].
  - rewrite not_elem_of_cons. destruct (decide (k = k0)) as [->|Hne].
    + split; [done | by intros [? _]].
    + rewrite IH. tauto.
Qed.

Lemma od_keys_set k v d :
  od_keys (od_set k v d) =
    if od_get k d is Some _ then od_keys d else od_keys d ++ [k].
Proof.
  unfold od_keys. induction d as [|[k0 v0] d IH]; csimpl; [done|].
  destruct (decide (k = k0)) as [->|Hne]; csimpl; [done|].
  rewrite IH. by destruct (od_get k d).
Qed.

Lemma od_set_NoDup k v d : NoDup (od_keys d) -> NoDup (od_keys (od_set k v d)).
Proof.
  intros Hd. rewrite od_keys_set. destruct (od_get k d) eqn:Hk; [done|].
  apply NoDup_app. split_and!; [done | | apply NoDup_singleton].
  intros x Hx ->%list_elem_of_singleton. by apply od_get_None in Hk.
Qed.

(* a dictionary holds one binding per key *)
Lemma od_filter_key k d :
  NoDup (od_keys d) ->
  filter (fun kv => kv.1 = k) d =
    match od_get k d with Some v => [(k, v)] | None => [] end.
Proof.
  unfold od_keys. induction d as [|[k0 v0] d IH]; [done|].
  rewrite fmap_cons. intros [Hk0 Hd]%NoDup_cons. specialize (IH Hd).
  cbn [od_get fst]. destruct (decide (k = k0)) as [->|Hne].
  - rewrite filter_cons_True by done. f_equal.
    apply (od_get_None k0 d) in Hk0. by rewrite IH, Hk0.
  - by rewrite filter_cons_False by (simpl; congruence).
Qed.

Lemma od_get_elem_of k v d : od_get k d = Some v -> (k, v) ∈ d.
Proof.
  induction d as [|[k0 v0] d IH]; simpl; [done|].
  destruct (decide (k = k0)) as [->|Hne].
  - intros [= ->]. left.
  - intros. right. auto.
Qed.

Lemma od_elem_of_get k v d : NoDup (od_keys d) -> (k, v) ∈ d -> od_get k d = Some v.
Proof.
  unfold od_keys. induction d as [|[k0 v0] d IH]; simpl.
  - by intros _ ?%elem_of_nil.
  - intros [Hk0 Hd]%NoDup_cons [[= -> ->]|Hin]%elem_of_cons.
    + by rewrite decide_True.
    + rewrite decide_False; [auto|].
      intros ->. apply Hk0. apply list_elem_of_fmap. by exists (k0, v).
Qed.

Lemma od_set_elem_of k v k' v' d :
  (k', v') ∈ od_set k v d -> (k', v') ∈ d \/ v' = v.
Proof.
  induction d as [|[k0 v0] d IH]; simpl.
  - intros [= _ ->]%list_elem_of_singleton. by right.
  - destruct (decide (k = k0)) as [->|Hne].
    + intros [[= _ ->]|Hin]%elem_of_cons; [by right | left; by right].
    + intros [->|Hin]%elem_of_cons; [left; left|].
      destruct (IH Hin); [left; by right | by right].
Qed.

End OrderedDictFacts.

(** ** The association engine *)

Section EngineFacts.
Context {Num BestTrack VortTrack : Type}.
Context `{!PyNum Num, !Geometry Num}.
Context `{!EqDecision BestTrack, !EqDecision VortTrack}.
Context `{!BestTrackAPI Num BestTrack, !VortTrackAPI Num VortTrack}.

Local Abbreviation Match_t := (Match Num BestTrack VortTrack).
Local Abbreviation visit_t := (joint_visit Num BestTrack VortTrack).
Implicit Types (bt : BestTrack) (vt : VortTrack) (m : Match_t) (j : visit_t).
Implicit Types (ms : matches_t Num BestTrack VortTrack).
Implicit Types (idx : gmap date (list VortTrack)).

Lemma for_each_fmap {A B S} (body : S -> B -> result S) (f : A -> B)
    (l : list A) (s : S) :
  for_each body (f <$> l) s = for_each (fun s a => body s (f a)) l s.
Proof.
  revert s. induction l as [|a l IH]; intros s; csimpl; [done|].
  destruct (body s (f a)); simpl; [apply IH | done].
Qed.

(* the nested loops of [match] run the joint visits in order *)
Lemma match_joint_visits idx (bts : list BestTrack) :
  match_ idx bts = for_each visit_jv (joint_visits idx bts) [].
Proof.
  unfold match_, joint_visits. rewrite <- for_each_bind.
  apply for_each_ext. intros ms bt _.
  unfold visit_track, visits_of_track. rewrite <- for_each_bind.
  apply for_each_ext. intros ms' [lon [lat d]] _.
  unfold visit_date, visits_of_date. simpl.
  destruct (idx !! d) as [vts|]; simpl; [|done].
  by rewrite for_each_fmap.
Qed.

Lemma Match_init_fields bt vt m :
  Match_init bt vt = Ok m ->
  exists b0 v0 b1 v1,
    head (bt_dates bt) = Some b0 /\ head (vt_dates vt) = Some v0 /\
    last (bt_dates bt) = Some b1 /\ last (vt_dates vt) = Some v1 /\
    m = mkMatch bt vt (num_of_int 0) 1 false (Z.max b0 v0) (Z.min b1 v1).
Proof.
  unfold Match_init, first_item, last_item.
  destruct (bt_dates bt) as [|b0 bs] eqn:Hb; simpl; [done|].
  destruct (vt_dates vt) as [|v0 vs] eqn:Hv; simpl; [done|].
  destruct (last (b0 :: bs)) as [b1|] eqn:Hb1; simpl; [|done].
  destruct (last (v0 :: vs)) as [v1|] eqn:Hv1; simpl; [|done].
  intros [= <-]. by exists b0, v0, b1, v1.
Qed.

Lemma Match_init_total bt vt :
  bt_dates bt <> [] -> vt_dates vt <> [] -> is_Ok (Match_init bt vt).
Proof.
  unfold Match_init, first_item, last_item, is_Ok.
  destruct (bt_dates bt) as [|b0 bs] eqn:Hb; [done|].
  destruct (vt_dates vt) as [|v0 vs] eqn:Hv; [done|]. intros _ _. simpl.
  destruct (last (b0 :: bs)) as [b1|] eqn:Hb1; simpl;
    [|by apply last_None in Hb1].
  destruct (last (v0 :: vs)) as [v1|] eqn:Hv1; simpl;
    [|by apply last_None in Hv1].
  eauto.
Qed.

(* one iteration of the innermost loop rewrites the binding of its pair *)
Lemma visit_jv_visit_match ms j :
  visit_jv ms j =
    m ← visit_match j (od_get (jv_key j) ms); mret (od_set (jv_key j) m ms).
Proof.
  unfold visit_jv, visit, visit_match, jv_key, accumulate, exceeds_cutoff.
  destruct (od_get (jv_best j, jv_vort j) ms) as [m|]; simpl.
  - destruct (getitem _ _) as [p|]; simpl; [|done].
    rewrite od_set_set. destruct m as [b v c n f s e]; simpl.
    by destruct f, (num_gt _ _).
  - destruct (Match_init _ _) as [m|] eqn:Hm; simpl; [|done].
    apply Match_init_fields in Hm as (b0 & v0 & b1 & v1 & _ & _ & _ & _ & ->).
    simpl. destruct (getitem _ _) as [p|]; simpl; [|done].
    rewrite od_set_set. by destruct (num_gt _ _).
Qed.

Lemma running_totals_snoc (c d : Num) (ds : list Num) :
  running_totals c (ds ++ [d]) =
    running_totals c ds ++ [num_add (default c (last (running_totals c ds))) d].
Proof.
  revert c. induction ds as [|d0 ds IH]; intros c; simpl; [done|].
  rewrite IH. f_equal. f_equal. f_equal.
  destruct (running_totals (num_add c d0) ds) as [|t ts] eqn:Hts; [done|].
  rewrite (last_cons_cons (num_add c d0)).
  by destruct (last (t :: ts)) eqn:Hl; [|apply last_None in Hl].
Qed.

Lemma running_totals_length (c : Num) (ds : list Num) :
  length (running_totals c ds) = length ds.
Proof. revert c. induction ds; intros c; simpl; auto. Qed.

(* the running totals are the cumulative sums of the prefixes *)
Lemma running_totals_lookup (c : Num) (ds : list Num) (k : nat) :
  (k < length ds)%nat ->
  running_totals c ds !! k = Some (foldl num_add c (take (S k) ds)).
Proof.
  revert c k. induction ds as [|d ds IH]; intros c k Hk; simpl in *; [lia|].
  destruct k as [|k]; simpl.
  - by destruct ds.
  - apply IH. lia.
Qed.

Lemma match_after_snoc bt vt (s e : date) (ds : list Num) (d : Num) :
  let m := match_after bt vt s e ds in
  let c := num_add (cum_dist m) d in
  match_after bt vt s e (ds ++ [d]) =
    mkMatch bt vt c (overlap m + 1) (is_too_far_away m || exceeds_cutoff c) s e.
Proof.
  unfold match_after, totals; simpl. rewrite running_totals_snoc.
  rewrite last_snoc, existsb_app, length_app; simpl.
  rewrite orb_false_r. f_equal. lia.
Qed.

Lemma visit_match_first j m0 (d : Num) :
  Match_init (jv_best j) (jv_vort j) = Ok m0 ->
  visit_dist j = Some d ->
  visit_match j None =
    Ok (match_after (jv_best j) (jv_vort j)
                    (overlap_start m0) (overlap_end m0) [d]).
Proof.
  intros Hm0 Hd. unfold visit_match, getitem. rewrite Hm0; simpl.
  apply Match_init_fields in Hm0 as (b0 & v0 & b1 & v1 & _ & _ & _ & _ & ->).
  unfold visit_dist in Hd.
  destruct (od_get _ _) as [p|]; simplify_eq/=.
  unfold match_after, totals; simpl. by rewrite orb_false_r.
Qed.

Lemma visit_match_again j (s e : date) (ds : list Num) (d : Num) :
  visit_dist j = Some d ->
  visit_match j (Some (match_after (jv_best j) (jv_vort j) s e ds)) =
    Ok (match_after (jv_best j) (jv_vort j) s e (ds ++ [d])).
Proof.
  intros Hd. unfold visit_match, getitem. simpl.
  unfold visit_dist in Hd. destruct (od_get _ _) as [p|]; simplify_eq/=.
  by rewrite match_after_snoc.
Qed.

Lemma mapM_snoc {A B} (f : A -> option B) (l : list A) (a : A) ks k :
  mapM f l = Some ks -> f a = Some k -> mapM f (l ++ [a]) = Some (ks ++ [k]).
Proof.
  intros Hl Ha. apply mapM_Some. apply mapM_Some in Hl.
  apply Forall2_app; [done|]. by constructor.
Qed.

(* one more joint visit keeps every pair's binding in step with its visits *)
Lemma visit_jv_outcome ms js j :
  NoDup (od_keys ms) ->
  (forall bt vt, pair_outcome js bt vt (od_get (bt, vt) ms)) ->
  visit_ok j ->
  exists ms', visit_jv ms j = Ok ms' /\ NoDup (od_keys ms') /\
    forall bt vt, pair_outcome (js ++ [j]) bt vt (od_get (bt, vt) ms').
Proof.
  intros Hnd Hinv (Hb & Hv & [d Hd]).
  rewrite visit_jv_visit_match.
  assert (exists m', visit_match j (od_get (jv_key j) ms) = Ok m' /\
            pair_outcome (js ++ [j]) (jv_best j) (jv_vort j) (Some m'))
    as (m' & -> & Hm').
  { specialize (Hinv (jv_best j) (jv_vort j)). unfold jv_key at 1.
    unfold pair_outcome in *. rewrite filter_app, filter_cons_True by done.
    rewrite filter_nil.
    destruct (od_get (jv_best j, jv_vort j) ms) as [m|].
    - destruct Hinv as (Hne & m0 & ds & Hm0 & Hds & ->).
      eexists. split; [by apply visit_match_again|].
      split; [by intros [? _]%app_eq_nil|].
      exists m0, (ds ++ [d]). split_and!; [done | by apply mapM_snoc | done].
    - rewrite Hinv. simpl.
      destruct (Match_init_total (jv_best j) (jv_vort j)) as [m0 Hm0]; [done..|].
      eexists. split; [by apply visit_match_first|].
      split; [done|]. exists m0, [d]. split_and!; [done | | done].
      simpl. by rewrite Hd. }
  simpl. eexists. split; [done|]. split; [by apply od_set_NoDup|].
  intros bt vt. rewrite od_get_set.
  destruct (decide ((bt, vt) = jv_key j)) as [Heq|Hne].
  - unfold jv_key in Heq. by simplify_eq.
  - specialize (Hinv bt vt). unfold pair_outcome in *.
    rewrite filter_app, filter_cons_False by done.
    by rewrite filter_nil, app_nil_r.
Qed.

Lemma run_outcome js :
  Forall visit_ok js ->
  exists ms, for_each visit_jv js [] = Ok ms /\ NoDup (od_keys ms) /\
    forall bt vt, pair_outcome js bt vt (od_get (bt, vt) ms).
Proof.
  induction js as [|j js IH] using rev_ind; intros Hok.
  - exists []. split_and!; [done | apply NoDup_nil_2 | done].
  - apply Forall_app in Hok as [Hjs [Hj _]%Forall_cons].
    destruct (IH Hjs) as (ms & Hrun & Hnd & Hinv).
    destruct (visit_jv_outcome ms js j Hnd Hinv Hj) as (ms' & Hv & Hnd' & Hinv').
    exists ms'. rewrite for_each_app, Hrun. simpl. by rewrite Hv.
Qed.

Lemma elem_of_joint_visits idx (bts : list BestTrack) j :
  j ∈ joint_visits idx bts <->
  exists vts, jv_best j ∈ bts /\
    (jv_lon j, (jv_lat j, jv_date j)) ∈ observations (jv_best j) /\
    idx !! jv_date j = Some vts /\ jv_vort j ∈ vts.
Proof.
  unfold joint_visits, visits_of_track, visits_of_date.
  rewrite list_elem_of_bind. split.
  - intros (bt & (obs & Hj & Hobs)%list_elem_of_bind & Hbt).
    apply list_elem_of_fmap in Hj as (vt & -> & Hvt). simpl.
    destruct obs as [lon [lat d]]; simpl in *.
    destruct (idx !! d) as [vts|] eqn:Hd; simpl in Hvt.
    + by exists vts.
    + by apply elem_of_nil in Hvt.
  - intros (vts & Hbt & Hobs & Hd & Hvt). exists (jv_best j). split; [|done].
    apply list_elem_of_bind. eexists. split; [|exact Hobs]. simpl.
    rewrite Hd. simpl. apply list_elem_of_fmap. exists (jv_vort j).
    split; [by destruct j | done].
Qed.

Lemma joint_visits_ok idx (bts : list BestTrack) :
  index_consistent idx -> Forall visit_ok (joint_visits idx bts).
Proof.
  intros Hidx. apply Forall_forall. intros j.
  rewrite elem_of_joint_visits. intros (vts & _ & Hobs & Hd & Hvt).
  destruct (Hidx _ _ _ Hd Hvt) as [Hdates [p Hp]].
  split_and!; [|done|].
  - apply elem_of_zip_r, elem_of_zip_r in Hobs.
    intros Hnil. rewrite Hnil in Hobs. by apply elem_of_nil in Hobs.
  - unfold visit_dist. rewrite Hp. by eexists.
Qed.

Lemma share_a_date_pair_visits idx (bts : list BestTrack) bt vt :
  share_a_date idx bts bt vt <-> pair_visits idx bts bt vt <> [].
Proof.
  unfold share_a_date, pair_visits. split.
  - intros ([lon [lat d]] & vts & Hbt & Hobs & Hd & Hvt) Hnil.
    assert (mkVisit bt lon lat d vt ∈
              filter (fun j => jv_key j = (bt, vt)) (joint_visits idx bts)) as Hin.
    { apply list_elem_of_filter. split; [done|].
      apply elem_of_joint_visits. by exists vts. }
    rewrite Hnil in Hin. by apply elem_of_nil in Hin.
  - destruct (filter _ _) as [|j js] eqn:Hf; [done|]. intros _.
    assert (j ∈ filter (fun j => jv_key j = (bt, vt)) (joint_visits idx bts))
      as [Hk Hj]%list_elem_of_filter by (rewrite Hf; left).
    apply elem_of_joint_visits in Hj as (vts & Hbt & Hobs & Hd & Hvt).
    unfold jv_key in Hk. simplify_eq.
    by exists (jv_lon j, (jv_lat j, jv_date j)), vts.
Qed.

(* under a consistent index the engine raises nothing, and leaves under each
   key what the joint visits of the pair make of it *)
Lemma match_outcome idx (bts : list BestTrack) :
  index_consistent idx ->
  exists ms, match_ idx bts = Ok ms /\ NoDup (od_keys ms) /\
    forall bt vt,
      pair_outcome (joint_visits idx bts) bt vt (od_get (bt, vt) ms).
Proof.
  intros Hidx. rewrite match_joint_visits.
  by apply run_outcome, joint_visits_ok.
Qed.

(** C1: a reference track and a candidate that share a date get exactly one
    Match, and its overlap is the number of joint visits of the pair (the
    creating visit and every repeat). *)
Theorem match_overlap_counts_joint_visits idx (bts : list BestTrack) bt vt :
  index_consistent idx ->
  share_a_date idx bts bt vt ->
  exists ms m,
    match_ idx bts = Ok ms /\
    filter (fun kv => kv.1 = (bt, vt)) ms = [((bt, vt), m)] /\
    overlap m = Z.of_nat (length (pair_visits idx bts bt vt)).
Proof.
  intros Hidx Hshare%share_a_date_pair_visits.
  destruct (match_outcome idx bts Hidx) as (ms & Hrun & Hnd & Hinv).
  specialize (Hinv bt vt). unfold pair_outcome in Hinv.
  fold (pair_visits idx bts bt vt) in Hinv.
  destruct (od_get (bt, vt) ms) as [m|] eqn:Hget; [|done].
  destruct Hinv as (_ & m0 & ds & _ & Hds & ->).
  exists ms. eexists. split; [done|]. rewrite od_filter_key, Hget by done.
  split; [done|]. simpl. f_equal. symmetry.
  apply mapM_Some in Hds. by apply Forall2_length in Hds.
Qed.

Lemma zip_nil_r {A B} (l : list A) : zip l (@nil B) = [].
Proof. by destruct l. Qed.

Lemma observations_nil bt : bt_dates bt = [] -> observations bt = [].
Proof. intros Hd. unfold observations. by rewrite Hd, !zip_nil_r. Qed.

(** C2 (as amended): the engine validates nothing.  A reference track with
    zero observations is skipped: alone it yields the empty mapping, and among
    others the run goes on as if it were not in the list.  A candidate with no
    dates raises IndexError, from the Match constructor, when its pair is
    first jointly visited. *)
Theorem zero_observation_tracks_not_rejected :
  (forall idx bt, observations bt = [] -> match_ idx [bt] = Ok []) /\
  (forall idx (bts1 bts2 : list BestTrack) bt,
     observations bt = [] ->
     match_ idx (bts1 ++ bt :: bts2) = match_ idx (bts1 ++ bts2)) /\
  (forall ms bt (lon lat : Num) (d : date) vt,
     od_get (bt, vt) ms = None -> vt_dates vt = [] ->
     visit bt lon lat d ms vt = Raise IndexError).
Proof.
  split_and!.
  - intros idx bt Hobs. unfold match_, visit_track. simpl. by rewrite Hobs.
  - intros idx bts1 bts2 bt Hobs. unfold match_.
    rewrite !for_each_app. destruct (for_each _ bts1 []) as [ms|]; simpl; [|done].
    unfold visit_track at 2. by rewrite Hobs.
  - intros ms bt lon lat d vt Hget Hd. unfold visit. rewrite Hget.
    unfold Match_init. rewrite Hd.
    destruct (bt_dates bt); reflexivity.
Qed.


Lemma existsb_lookup {A} (f : A -> bool) (l : list A) :
  existsb f l = true <-> exists k x, l !! k = Some x /\ f x = true.
Proof.
  rewrite existsb_exists. split.
  - intros (x & Hin & Hf). apply list_elem_of_In, list_elem_of_lookup in Hin.
    destruct Hin as [k Hk]. eauto.
  - intros (k & x & Hk & Hf). exists x. split; [|done].
    apply list_elem_of_In, list_elem_of_lookup. eauto.
Qed.

(* the flag of a Match is set when one of the running totals exceeded the
   cutoff *)
Lemma match_after_flag bt vt (s e : date) (ds : list Num) :
  is_too_far_away (match_after bt vt s e ds) = true <->
  exists k, (k < length ds)%nat /\
    exceeds_cutoff (foldl num_add (num_of_int 0) (take (S k) ds)) = true.
Proof.
  unfold match_after, totals; simpl. rewrite existsb_lookup. split.
  - intros (k & c & Hk & Hc). exists k.
    assert (k < length ds)%nat as Hlt.
    { apply lookup_lt_Some in Hk. by rewrite running_totals_length in Hk. }
    split; [done|]. rewrite running_totals_lookup in Hk by done. by simplify_eq.
  - intros (k & Hlt & Hc). eexists k, _. split; [|exact Hc].
    by apply running_totals_lookup.
Qed.

Lemma match_pair_after idx (bts : list BestTrack) bt vt (ds : list Num) :
  index_consistent idx ->
  mapM visit_dist (pair_visits idx bts bt vt) = Some ds ->
  ds <> [] ->
  exists ms m0,
    match_ idx bts = Ok ms /\ Match_init bt vt = Ok m0 /\
    od_get (bt, vt) ms =
      Some (match_after bt vt (overlap_start m0) (overlap_end m0) ds).
Proof.
  intros Hidx Hds Hne.
  destruct (match_outcome idx bts Hidx) as (ms & Hrun & _ & Hinv).
  specialize (Hinv bt vt). unfold pair_outcome in Hinv.
  fold (pair_visits idx bts bt vt) in Hinv.
  destruct (od_get (bt, vt) ms) as [m|] eqn:Hget.
  - destruct Hinv as (_ & m0 & ds' & Hm0 & Hds' & ->).
    exists ms, m0. by simplify_eq.
  - rewrite Hinv in Hds. by apply mapM_Some, Forall2_nil_inv_l in Hds.
Qed.

(* a joint visit touches nothing but the totals and the flag of a Match
   already in the dictionary *)
Lemma visit_frame ms bt (lon lat : Num) (d : date) vt ms' k m :
  od_get k ms = Some m ->
  visit bt lon lat d ms vt = Ok ms' ->
  exists m', od_get k ms' = Some m' /\
    best_track m' = best_track m /\ vort_track m' = vort_track m /\
    overlap_start m' = overlap_start m /\ overlap_end m' = overlap_end m.
Proof.
  intros Hget Hv.
  pose proof (visit_jv_visit_match ms (mkVisit bt lon lat d vt)) as Hvm.
  unfold visit_jv, jv_key in Hvm. simpl in Hvm. rewrite Hv in Hvm.
  destruct (visit_match _ _) as [m1|] eqn:Hm1; [|done].
  ok_inv Hvm.
  rewrite od_get_set. destruct (decide (k = (bt, vt))) as [->|Hne]; [|by exists m].
  rewrite Hget in Hm1. unfold visit_match in Hm1. simpl in Hm1.
  destruct (getitem _ _); [|done].
  ok_inv Hm1. by eexists.
Qed.

(** C9: the overlap window is computed by the constructor, from the first
    and last dates of the two tracks, and no visit changes it: a joint visit
    leaves the reference track, the candidate and the window of every Match
    in the dictionary as they were, so the Matches of a run still carry what
    the constructor gave them. *)
Theorem overlap_window_fixed_at_construction :
  (forall bt vt (b0 v0 b1 v1 : date),
     head (bt_dates bt) = Some b0 -> head (vt_dates vt) = Some v0 ->
     last (bt_dates bt) = Some b1 -> last (vt_dates vt) = Some v1 ->
     exists m, Match_init bt vt = Ok m /\
       best_track m = bt /\ vort_track m = vt /\
       overlap_start m = Z.max b0 v0 /\ overlap_end m = Z.min b1 v1) /\
  (forall ms bt (lon lat : Num) (d : date) vt ms' k m,
     od_get k ms = Some m ->
     visit bt lon lat d ms vt = Ok ms' ->
     exists m', od_get k ms' = Some m' /\
       best_track m' = best_track m /\ vort_track m' = vort_track m /\
       overlap_start m' = overlap_start m /\ overlap_end m' = overlap_end m) /\
  (forall idx (bts : list BestTrack),
     index_consistent idx ->
     exists ms, match_ idx bts = Ok ms /\
       forall bt vt m, od_get (bt, vt) ms = Some m ->
         exists m0, Match_init bt vt = Ok m0 /\
           best_track m = bt /\ vort_track m = vt /\
           overlap_start m = overlap_start m0 /\
           overlap_end m = overlap_end m0).
Proof.
  split_and!.
  - intros bt vt b0 v0 b1 v1 Hb0 Hv0 Hb1 Hv1.
    unfold Match_init, first_item, last_item. rewrite Hb1, Hv1.
    destruct (bt_dates bt), (vt_dates vt); simplify_eq/=. by eexists.
  - apply visit_frame.
  - intros idx bts Hidx.
    destruct (match_outcome idx bts Hidx) as (ms & Hrun & _ & Hinv).
    exists ms. split; [done|]. intros bt vt m Hget.
    specialize (Hinv bt vt). rewrite Hget in Hinv.
    destruct Hinv as (_ & m0 & ds & Hm0 & _ & ->). by exists m0.
Qed.

Lemma visit_overlap_positive ms bt (lon lat : Num) (d : date) vt ms' :
  (forall k m, (k, m) ∈ ms -> 1 <= overlap m) ->
  visit bt lon lat d ms vt = Ok ms' ->
  forall k m, (k, m) ∈ ms' -> 1 <= overlap m.
Proof.
  intros Hinv Hv.
  pose proof (visit_jv_visit_match ms (mkVisit bt lon lat d vt)) as Hvm.
  unfold visit_jv, jv_key in Hvm. simpl in Hvm. rewrite Hv in Hvm.
  destruct (visit_match _ _) as [m1|] eqn:Hm1; [|done].
  ok_inv Hvm.
  intros k m [Hin| ->]%od_set_elem_of; [by eapply Hinv|].
  unfold visit_match in Hm1. simpl in Hm1.
  destruct (od_get (bt, vt) ms) as [m0|] eqn:Hget; simpl in Hm1.
  - destruct (getitem _ _); [|done].
    ok_inv Hm1.
    apply od_get_elem_of, Hinv in Hget. lia.
  - destruct (Match_init bt vt) as [m0|] eqn:Hm0; simpl in Hm1; [|done].
    apply Match_init_fields in Hm0 as (? & ? & ? & ? & _ & _ & _ & _ & ->).
    destruct (getitem _ _); [|done].
    by ok_inv Hm1.
Qed.

(** C10: every Match in the output of the engine has an overlap of at least
    one, so its average distance is a quotient by a non-zero count and
    [av_dist] raises nothing. *)
Theorem engine_matches_have_positive_overlap idx (bts : list BestTrack) ms :
  match_ idx bts = Ok ms ->
  forall k m, (k, m) ∈ ms ->
    1 <= overlap m /\
    av_dist m = Ok (num_div_int (cum_dist m) (overlap m)).
Proof.
  rewrite match_joint_visits. intros Hrun.
  assert (forall k m, (k, m) ∈ ms -> 1 <= overlap m) as Hpos.
  { eapply (for_each_inv (fun ms => forall k m, (k, m) ∈ ms -> 1 <= overlap m));
      [| |exact Hrun].
    - intros ms1 j ms2 _ Hinv Hv. by eapply visit_overlap_positive.
    - by intros k m ?%elem_of_nil. }
  intros k m Hin. specialize (Hpos k m Hin). split; [done|].
  unfold av_dist. rewrite decide_False; [done | lia].
Qed.

(* the Matches of a run refer to best tracks of the argument list *)
Lemma match_best_track_supplied idx (bts : list BestTrack) ms :
  match_ idx bts = Ok ms ->
  forall k m, (k, m) ∈ ms -> best_track m ∈ bts.
Proof.
  rewrite match_joint_visits.
  apply (for_each_inv (fun ms => forall k m, (k, m) ∈ ms -> best_track m ∈ bts));
    [|by intros k m ?%elem_of_nil].
  intros ms1 j ms2 Hj Hinv Hv. rewrite visit_jv_visit_match in Hv.
  apply elem_of_joint_visits in Hj as (_ & Hbt & _).
  destruct (visit_match _ _) as [m1|] eqn:Hm1; [|done].
  ok_inv Hv.
  intros k m [Hin| ->]%od_set_elem_of; [by eapply Hinv|].
  unfold visit_match in Hm1.
  destruct (od_get (jv_key j) ms1) as [m0|] eqn:Hget; simpl in Hm1.
  - destruct (getitem _ _); [|done].
    ok_inv Hm1.
    by apply od_get_elem_of, Hinv in Hget.
  - destruct (Match_init _ _) as [m0|] eqn:Hm0; simpl in Hm1; [|done].
    apply Match_init_fields in Hm0 as (? & ? & ? & ? & _ & _ & _ & _ & ->).
    destruct (getitem _ _); [|done].
    by ok_inv Hm1.
Qed.

End EngineFacts.

(** C4: the too-far-away flag of a Match is set exactly when, at one of the
    joint visits of its pair, the distance accumulated so far is greater than
    the cutoff of 100.  In binary64 arithmetic, a candidate that shares a
    single date with the reference track, 200 away from it, gets a Match with
    overlap 1, cumulative distance 200 and the flag set. *)
Theorem flag_set_iff_cutoff_exceeded :
  (forall (Num BestTrack VortTrack : Type)
      `{!PyNum Num, !Geometry Num}
      `{!EqDecision BestTrack, !EqDecision VortTrack}
      `{!BestTrackAPI Num BestTrack, !VortTrackAPI Num VortTrack}
      (idx : gmap date (list VortTrack)) (bts : list BestTrack)
      (bt : BestTrack) (vt : VortTrack) (ds : list Num),
     index_consistent idx ->
     mapM visit_dist (pair_visits idx bts bt vt) = Some ds ->
     ds <> [] ->
     exists ms m,
       match_ idx bts = Ok ms /\ od_get (bt, vt) ms = Some m /\
       (is_too_far_away m = true <->
        exists k, (k < length ds)%nat /\
          num_gt (foldl num_add (num_of_int 0) (take (S k) ds))
                 (num_of_int CUM_DIST_CUTOFF) = true)) /\
  (forall (BestTrack VortTrack : Type)
      `{!Geometry PrimFloat.float}
      `{!EqDecision BestTrack, !EqDecision VortTrack}
      `{!BestTrackAPI PrimFloat.float BestTrack}
      `{!VortTrackAPI PrimFloat.float VortTrack}
      (idx : gmap date (list VortTrack)) (bts : list BestTrack)
      (bt : BestTrack) (vt : VortTrack)
      (j : joint_visit PrimFloat.float BestTrack VortTrack),
     index_consistent idx ->
     pair_visits idx bts bt vt = [j] ->
     visit_dist j = Some (num_of_int 200) ->
     exists ms m,
       match_ idx bts = Ok ms /\ od_get (bt, vt) ms = Some m /\
       overlap m = 1 /\ cum_dist m = num_of_int 200 /\
       is_too_far_away m = true).
Proof.
  split.
  - intros Num BestTrack VortTrack ?????? idx bts bt vt ds Hidx Hds Hne.
    destruct (match_pair_after idx bts bt vt ds Hidx Hds Hne)
      as (ms & m0 & Hrun & _ & Hget).
    eexists ms, _. split_and!; [done..|]. apply match_after_flag.
  - intros BestTrack VortTrack ????? idx bts bt vt j Hidx Hpv Hj.
    destruct (match_pair_after idx bts bt vt [num_of_int 200] Hidx)
      as (ms & m0 & Hrun & _ & Hget); [by rewrite Hpv; simpl; rewrite Hj|done|].
    eexists ms, _. split_and!; [done..| |]; reflexivity.
Qed.

(** ** The match aggregator *)

Section AggregatorFacts.
Context {Num BestTrack VortTrack : Type}.
Context `{Countable BestTrack}.

Local Abbreviation Match_t := (Match Num BestTrack VortTrack).
Implicit Types (bt : BestTrack) (m : Match_t) (l : list Match_t).
Implicit Types (cm : gmap BestTrack (list Match_t)).

Lemma empty_lists_from cm (bts : list BestTrack) bt :
  foldl (fun cm bt => <[bt := []]> cm) cm bts !! bt =
    if decide (bt ∈ bts) then Some [] else cm !! bt.
Proof.
  revert cm. induction bts as [|b bts IH]; intros cm; simpl.
  - done.
  - rewrite IH. destruct (decide (bt ∈ bts)) as [Hin|Hnin].
    + by rewrite decide_True by (by right).
    + destruct (decide (bt = b)) as [->|Hne].
      * rewrite decide_True by left. by rewrite lookup_insert_eq.
      * rewrite decide_False by (by intros [?|?]%elem_of_cons).
        by rewrite lookup_insert_ne.
Qed.

Lemma empty_lists_grouped (bts : list BestTrack) :
  grouped_by_reference bts [] (empty_lists bts : gmap BestTrack (list Match_t)).
Proof.
  intros bt. unfold empty_lists. rewrite empty_lists_from, lookup_empty.
  by destruct (decide (bt ∈ bts)).
Qed.

Lemma flatten_no_matches cm :
  (forall bt l, cm !! bt = Some l -> l = []) -> flatten cm = [].
Proof.
  intros Hcm. unfold flatten.
  assert (Forall (fun kv => kv.2 = []) (map_to_list cm)) as Hall.
  { apply Forall_forall. intros [k l] Hin%elem_of_map_to_list. by eapply Hcm. }
  induction Hall as [|[k l] kvs Hl _ IH]; csimpl; [done|].
  simpl in Hl. by rewrite Hl, IH.
Qed.

Lemma flatten_append cm bt l m :
  cm !! bt = Some l -> flatten (<[bt := l ++ [m]]> cm) ≡ₚ flatten cm ++ [m].
Proof.
  intros Hl. unfold flatten.
  rewrite <- (map_to_list_delete cm bt l Hl).
  rewrite <- insert_delete_eq.
  rewrite map_to_list_insert by apply lookup_delete_eq. csimpl.
  rewrite <- !(assoc_L (++)). f_equiv. apply (comm (++)).
Qed.

(* line 77 files one Match under its best track *)
Lemma append_match_grouped (bts : list BestTrack) l cm m :
  grouped_by_reference bts l cm ->
  best_track m ∈ bts ->
  exists cm', append_match cm m = Ok cm' /\
    grouped_by_reference bts (l ++ [m]) cm' /\
    flatten cm' ≡ₚ flatten cm ++ [m].
Proof.
  intros Hg Hin. unfold append_match.
  pose proof (Hg (best_track m)) as Hm. rewrite decide_True in Hm by done.
  rewrite Hm. eexists. split; [done|]. split; [|by apply flatten_append].
  intros bt. rewrite filter_app. destruct (decide (bt = best_track m)) as [->|Hne].
  - rewrite lookup_insert_eq, decide_True by done.
    by rewrite filter_cons_True by done.
  - rewrite lookup_insert_ne, Hg by done.
    rewrite filter_cons_False by done. by rewrite filter_nil, app_nil_r.
Qed.

Lemma append_matches_grouped (bts : list BestTrack) l cm (ms : list Match_t) :
  grouped_by_reference bts l cm ->
  Forall (fun m => best_track m ∈ bts) ms ->
  exists cm', for_each append_match ms cm = Ok cm' /\
    grouped_by_reference bts (l ++ ms) cm' /\
    flatten cm' ≡ₚ flatten cm ++ ms.
Proof.
  intros Hg Hms. revert l cm Hg.
  induction Hms as [|m ms Hm _ IH]; intros l cm Hg; simpl.
  - exists cm. by rewrite !app_nil_r.
  - destruct (append_match_grouped bts l cm m Hg Hm) as (cm1 & -> & Hg1 & Hf1).
    simpl. destruct (IH _ _ Hg1) as (cm2 & -> & Hg2 & Hf2).
    exists cm2. split; [done|]. rewrite <- (assoc_L (++)) in Hg2.
    split; [done|]. by rewrite Hf2, Hf1, <- (assoc_L (++)).
Qed.

(* the aggregator on Matches that all refer to a supplied best track *)
Lemma combined_match_grouped (bts : list BestTrack)
    (all_matches : list (list Match_t)) :
  Forall (Forall (fun m => best_track m ∈ bts)) all_matches ->
  exists cm, combined_match bts all_matches = Ok cm /\
    grouped_by_reference bts (mjoin all_matches) cm /\
    flatten cm ≡ₚ mjoin all_matches.
Proof.
  intros Hall. unfold combined_match.
  assert (forall l cm, grouped_by_reference bts l cm ->
            exists cm', for_each (fun cm ms => for_each append_match ms cm)
                                 all_matches cm = Ok cm' /\
              grouped_by_reference bts (l ++ mjoin all_matches) cm' /\
              flatten cm' ≡ₚ flatten cm ++ mjoin all_matches) as Hloop.
  { induction Hall as [|ms mss Hms _ IH]; intros l cm Hg; csimpl.
    - exists cm. by rewrite !app_nil_r.
    - destruct (append_matches_grouped bts l cm ms Hg Hms) as (cm1 & -> & Hg1 & Hf1).
      simpl. destruct (IH _ _ Hg1) as (cm2 & -> & Hg2 & Hf2).
      exists cm2. split; [done|]. rewrite <- (assoc_L (++)) in Hg2.
      split; [done|]. by rewrite Hf2, Hf1, <- (assoc_L (++)). }
  destruct (Hloop [] _ (empty_lists_grouped bts)) as (cm & Hrun & Hg & Hf).
  exists cm. split_and!; [done..|]. rewrite Hf.
  rewrite flatten_no_matches; [done|].
  intros bt l. rewrite (empty_lists_grouped bts bt).
  destruct (decide (bt ∈ bts)); naive_solver.
Qed.

End AggregatorFacts.

Section PipelineFacts.
Context {Num BestTrack VortTrack : Type}.
Context `{!PyNum Num, !Geometry Num}.
Context `{Countable BestTrack, !EqDecision VortTrack}.
Context `{!BestTrackAPI Num BestTrack, !VortTrackAPI Num VortTrack}.

(** C5: the aggregator, given the reference tracks and the Matches of any
    number of engine runs over them, returns a mapping that has every supplied
    reference track as a key, holds under each key the Matches whose
    reference track it is (none: the empty list), in input order, and whose
    values taken together are the input Matches, each exactly once. *)
Theorem combined_match_regroups (idxs : list (gmap date (list VortTrack)))
    (bts : list BestTrack) (outs : list (matches_t Num BestTrack VortTrack)) :
  Forall2 (fun idx out => match_ idx bts = Ok out) idxs outs ->
  exists cm,
    combined_match bts (od_values <$> outs) = Ok cm /\
    (forall bt, bt ∈ bts ->
       cm !! bt = Some (filter (fun m => best_track m = bt)
                               (mjoin (od_values <$> outs)))) /\
    (forall bt, bt ∉ bts -> cm !! bt = None) /\
    flatten cm ≡ₚ mjoin (od_values <$> outs).
Proof.
  intros Hruns.
  destruct (combined_match_grouped bts (od_values <$> outs))
    as (cm & Hcm & Hg & Hf).
  { apply Forall_fmap, Forall_forall. intros out Hout.
    apply list_elem_of_lookup in Hout as [i Hi].
    destruct (Forall2_lookup_r _ _ _ _ _ Hruns Hi) as (idx & _ & Hrun).
    apply Forall_forall. intros m Hm. unfold od_values in Hm.
    apply list_elem_of_fmap in Hm as ([k m'] & -> & Hin).
    by eapply match_best_track_supplied. }
  exists cm. split_and!; [done| | |done].
  - intros bt Hbt. by rewrite (Hg bt), decide_True.
  - intros bt Hbt. by rewrite (Hg bt), decide_False.
Qed.

End PipelineFacts.

(** ** The smoother parameter search *)

Lemma for_each_total {A S} (P : S -> Prop) (body : S -> A -> result S)
    (l : list A) (s : S) :
  (forall s a, a ∈ l -> P s -> exists s', body s a = Ok s' /\ P s') ->
  P s -> exists s', for_each body l s = Ok s' /\ P s'.
Proof.
  revert s. induction l as [|a l IH]; intros s Hstep Hs; simpl; [by eauto|].
  destruct (Hstep s a) as (s1 & -> & Hs1); [left|done|]. simpl.
  apply IH; [|done]. intros s2 b Hb. apply Hstep. by right.
Qed.

Lemma for_each_states_last {A S} (body : S -> A -> result S) (l : list A)
    (s : S) (tr : list S) :
  for_each_states body l s = Ok tr ->
  for_each body l s = Ok (default s (last tr)) /\ length tr = length l.
Proof.
  revert s tr. induction l as [|a l IH]; intros s tr; simpl.
  - by intros [= <-].
  - destruct (body s a) as [s1|]; simpl; [|done].
    destruct (for_each_states body l s1) as [tr1|] eqn:Htr; simpl; [|done].
    intros [= <-]. destruct (IH _ _ Htr) as [-> Hlen]. split; [|by rewrite <- Hlen].
    f_equal. destruct tr1 as [|s2 tr1]; [done|]. rewrite last_cons_cons.
    by destruct (last (s2 :: tr1)) eqn:Hl; [|apply last_None in Hl].
Qed.

Lemma for_each_states_inv {A S} (P : S -> Prop) (body : S -> A -> result S)
    (l : list A) (s : S) (tr : list S) (Q : S -> Prop) :
  (forall s a s', P s -> Q s' -> body s a = Ok s' -> P s') ->
  P s -> for_each_states body l s = Ok tr -> Forall Q tr ->
  P (default s (last tr)).
Proof.
  intros Hstep. revert s tr. induction l as [|a l IH]; intros s tr Hs; simpl.
  - by intros [= <-].
  - destruct (body s a) as [s1|] eqn:Hb; simpl; [|done].
    destruct (for_each_states body l s1) as [tr1|] eqn:Htr; simpl; [|done].
    intros [= <-] [Hq Hall]%Forall_cons.
    specialize (IH s1 tr1 (Hstep _ _ _ Hs Hq Hb) Htr Hall).
    destruct tr1 as [|s2 tr1]; [by eapply Hstep|]. rewrite last_cons_cons.
    by destruct (last (s2 :: tr1)) eqn:Hl; [|apply last_None in Hl].
Qed.

Section SearchFacts.
Context {Num BestTrack VortTrack : Type}.
Context `{!PyNum Num, !Geometry Num, !Smoother Num, !Grid Num}.
Context `{!BestTrackAPI Num BestTrack, !VortTrackAPI Num VortTrack}.

Implicit Types (bt : BestTrack) (vt : VortTrack) (st : search_state Num).
Implicit Types (pos : list (Pos Num)) (x : Pos Num) (q r s f : Num) (ov : Z).

(* the nested loops visit the grid points in order *)
Lemma search_grid bt vt pos x st :
  search bt vt pos x st =
    for_each (fun st qr => grid_point bt vt pos x qr.1 st qr.2) grid st.
Proof.
  unfold search, grid. rewrite <- for_each_bind.
  apply for_each_ext. intros st1 q _. rewrite <- for_each_bind.
  apply for_each_ext. intros st2 r _. simpl.
  by destruct (grid_point bt vt pos x q st2 r).
Qed.

(* rescoring refills the dictionaries and leaves the other locals alone *)
Lemma rescore_fields bt vt pos x q r st st1 s f ov :
  rescore bt vt pos x q r st = Ok (st1, (s, f, ov)) ->
  min_d st1 = min_d st /\ optimum_param st1 = optimum_param st /\
  stdout st1 = stdout st /\
  s = (_cum_dist bt (smoothed_dict st1)).1 /\
  f = (_cum_dist bt (filtered_dict st1)).1 /\
  ov = (_cum_dist bt (filtered_dict st1)).2.
Proof.
  unfold rescore. destruct (process_data pos x q r) as [sp fp].
  destruct (for_each _ _ _) as [[sd fd]|]; simpl; [|done].
  destruct (_cum_dist bt sd) as [s' ov'] eqn:Hs.
  destruct (_cum_dist bt fd) as [f' ov''] eqn:Hf.
  unfold mret, result_ret. intros [= <- <- <- <-]. simpl.
  by rewrite Hs, Hf.
Qed.

Lemma checks_keep_dicts ov q r s f st :
  let st' := filtered_check ov q r f (smoothed_check ov q r s st) in
  smoothed_dict st' = smoothed_dict st /\ filtered_dict st' = filtered_dict st.
Proof.
  unfold filtered_check, smoothed_check, adopt.
  by destruct (_ && num_lt s _); simpl; destruct (_ && num_lt f _).
Qed.

Lemma grid_point_rescore bt vt pos x q r st st' :
  grid_point bt vt pos x q st r = Ok st' ->
  exists st1 s f ov,
    rescore bt vt pos x q r st = Ok (st1, (s, f, ov)) /\
    st' = filtered_check ov q r f (smoothed_check ov q r s st1) /\
    recomputed_overlap bt st' = ov.
Proof.
  unfold grid_point.
  destruct (rescore bt vt pos x q r st) as [[st1 [[s f] ov]]|] eqn:Hr;
    simpl; [|done].
  unfold mret, result_ret. intros [= <-].
  apply rescore_fields in Hr as Hfields.
  destruct Hfields as (_ & _ & _ & _ & _ & Hov).
  exists st1, s, f, ov. split_and!; [done..|].
  unfold recomputed_overlap.
  by destruct (checks_keep_dicts ov q r s f st1) as [_ ->].
Qed.

(* below six overlapping dates a grid point adopts nothing *)
Lemma grid_point_gate bt vt pos x q r st st' :
  grid_point bt vt pos x q st r = Ok st' ->
  recomputed_overlap bt st' < 6 ->
  min_d st' = min_d st /\ optimum_param st' = optimum_param st /\
  stdout st' = stdout st.
Proof.
  intros (st1 & s & f & ov & Hr & Hst' & Hov)%grid_point_rescore Hlt.
  apply rescore_fields in Hr as (Hm & Ho & Hs & _).
  rewrite Hov in Hlt. rewrite Hst'. unfold filtered_check, smoothed_check.
  destruct (6 <=? ov) eqn:Hle; [apply Z.leb_le in Hle; lia|]. by simpl.
Qed.

Lemma initial_state_fields bt vt :
  min_d (initial_state bt vt) = (_cum_dist bt (vortmax_by_date vt)).1 /\
  optimum_param (initial_state bt vt) = None /\
  stdout (initial_state bt vt) =
    [baseline_line (_cum_dist bt (vortmax_by_date vt)).1].
Proof.
  unfold initial_state. by destruct (_cum_dist bt (vortmax_by_date vt)).
Qed.

(** C7: the search adopts nothing where fewer than six dates overlap.  A grid
    point whose recomputed overlap is below 6 leaves the running minimum and
    the optimum as they were and prints nothing; and when the recomputed
    overlap is below 6 at every grid point, the search ends with no optimum
    and with the baseline as its minimum. *)
Theorem no_optimum_below_six_overlapping_dates bt vt pos x :
  (forall q r st st',
     grid_point bt vt pos x q st r = Ok st' ->
     recomputed_overlap bt st' < 6 ->
     min_d st' = min_d st /\ optimum_param st' = optimum_param st /\
     stdout st' = stdout st) /\
  (forall tr,
     grid_states bt vt pos x (initial_state bt vt) = Ok tr ->
     Forall (fun st => recomputed_overlap bt st < 6) tr ->
     exists st',
       search bt vt pos x (initial_state bt vt) = Ok st' /\
       optimum_param st' = None /\
       min_d st' = (_cum_dist bt (vortmax_by_date vt)).1).
Proof.
  split.
  - intros q r st st'. apply grid_point_gate.
  - intros tr Htr Hall. unfold grid_states in Htr.
    destruct (initial_state_fields bt vt) as (Hmin & Hopt & _).
    exists (default (initial_state bt vt) (last tr)).
    split; [rewrite search_grid; by apply for_each_states_last in Htr as [-> _]|].
    rewrite <- Hmin, <- Hopt. apply and_comm.
    refine (for_each_states_inv
              (fun st => min_d st = min_d (initial_state bt vt) /\
                         optimum_param st = optimum_param (initial_state bt vt))
              _ _ _ _ _ _ _ Htr Hall); [|done].
    intros st [q r] st' [Hm Ho] Hlt Hgp. simpl in Hgp.
    destruct (grid_point_gate _ _ _ _ _ _ _ _ Hgp Hlt) as (-> & -> & _). done.
Qed.


Lemma elem_of_enumerate {A} (l : list A) (i : nat) (a : A) :
  (i, a) ∈ enumerate l -> (i < length l)%nat.
Proof.
  unfold enumerate. intros Hin%elem_of_zip_l.
  apply elem_of_seq in Hin. lia.
Qed.

(* the dictionaries are refilled without an IndexError when the smoother
   returns a position for every date of the vorticity track *)
Lemma rescore_total bt vt pos x q r st :
  (length (vortmax_by_date vt) <= length (process_data pos x q r).1)%nat ->
  (length (vortmax_by_date vt) <= length (process_data pos x q r).2)%nat ->
  is_Ok (rescore bt vt pos x q r st).
Proof.
  unfold rescore. destruct (process_data pos x q r) as [sp fp]; simpl.
  intros Hsp Hfp.
  destruct (for_each_total (fun _ => True) (fill_dicts sp fp)
              (enumerate (od_keys (vortmax_by_date vt)))
              (smoothed_dict st, filtered_dict st)) as ([sd fd] & -> & _);
    [|done|].
  - intros dicts [i d] Hin%elem_of_enumerate _.
    unfold od_keys in Hin. rewrite length_fmap in Hin.
    unfold fill_dicts, item; simpl.
    destruct (lookup_lt_is_Some_2 sp i) as [p ->]; [lia|].
    destruct (lookup_lt_is_Some_2 fp i) as [p' ->]; [lia|].
    simpl. by eexists.
  - simpl. destruct (_cum_dist bt sd), (_cum_dist bt fd). by eexists.
Qed.

Lemma last_optimum_printed_app (out : list (line Num)) p (out' : list (line Num)) :
  Forall (fun l => forall p', l <> new_optimum_line p') out' ->
  last_optimum_printed (out ++ new_optimum_line p :: out') = Some p.
Proof.
  intros Hout'. unfold last_optimum_printed.
  rewrite omap_app. csimpl.
  replace (omap _ out') with (@nil (Num * Num * mode)); [by rewrite last_snoc|].
  induction Hout' as [|l out' Hl _ IH]; csimpl; [done|].
  destruct l; by try (exfalso; by eapply Hl).
Qed.

(* the optimum is what was announced last *)
Lemma checks_printed ov q r s f st :
  last_optimum_printed (stdout st) = optimum_param st ->
  let st' := filtered_check ov q r f (smoothed_check ov q r s st) in
  last_optimum_printed (stdout st') = optimum_param st'.
Proof.
  intros Hst. unfold filtered_check, smoothed_check, adopt.
  destruct (_ && num_lt s _); simpl; destruct (_ && num_lt f _); simpl;
    try done; apply last_optimum_printed_app; by repeat constructor.
Qed.

Lemma search_total bt vt pos x st :
  (forall q r,
     (length (vortmax_by_date vt) <= length (process_data pos x q r).1)%nat /\
     (length (vortmax_by_date vt) <= length (process_data pos x q r).2)%nat) ->
  last_optimum_printed (stdout st) = optimum_param st ->
  exists st', search bt vt pos x st = Ok st' /\
    last_optimum_printed (stdout st') = optimum_param st'.
Proof.
  intros Hlen Hst. rewrite search_grid.
  apply (for_each_total
           (fun st => last_optimum_printed (stdout st) = optimum_param st));
    [|done].
  intros st1 [q r] _ Hst1. unfold grid_point. simpl.
  destruct (Hlen q r) as [Hsp Hfp].
  destruct (rescore_total bt vt pos x q r st1 Hsp Hfp)
    as [[st2 [[s f] ov]] Hr].
  rewrite Hr. simpl. eexists. split; [done|].
  apply checks_printed.
  apply rescore_fields in Hr as (_ & -> & -> & _). done.
Qed.

(** C6 (as amended): [_optimize] returns None.  When the vorticity track has
    a vorticity maximum and the smoother returns a position for each of its
    dates, the search runs to its end; the optimum it found (or none) stays in
    a local and is the last 'new optimum param' announced on standard output
    (none announced when no grid point improved on the baseline); the call
    then prints the ratio of the minimum to the baseline distance as its last
    line and returns None, or raises if that division does. *)
Theorem optimize_prints_and_returns_None bt vt x :
  first_item (vortmaxes vt) = Ok x ->
  (forall q r,
     (length (vortmax_by_date vt) <=
        length (process_data (vortmaxes vt) x q r).1)%nat /\
     (length (vortmax_by_date vt) <=
        length (process_data (vortmaxes vt) x q r).2)%nat) ->
  exists st,
    search bt vt (vortmaxes vt) x (initial_state bt vt) = Ok st /\
    last_optimum_printed (stdout st) = optimum_param st /\
    _optimize bt vt =
      (ratio ← num_div (min_d st) (_cum_dist bt (vortmax_by_date vt)).1;
       mret (PyNone, stdout st ++ [ratio_line ratio])).
Proof.
  intros Hx Hlen.
  destruct (search_total bt vt (vortmaxes vt) x (initial_state bt vt) Hlen)
    as (st & Hsearch & Hprinted).
  { destruct (initial_state_fields bt vt) as (_ & -> & ->). done. }
  exists st. split_and!; [done..|].
  unfold _optimize. destruct (_cum_dist bt (vortmax_by_date vt)) as [b ov].
  rewrite Hx. simpl. by rewrite Hsearch.
Qed.

End SearchFacts.

(** * Further properties of the engine *)

From Stdlib Require Import Sorted.

Section EngineRuns.
Context {Num BestTrack VortTrack : Type}.
Context `{!PyNum Num, !Geometry Num}.
Context `{!EqDecision BestTrack, !EqDecision VortTrack}.
Context `{!BestTrackAPI Num BestTrack, !VortTrackAPI Num VortTrack}.

Local Abbreviation Match_t := (Match Num BestTrack VortTrack).
Local Abbreviation visit_t := (joint_visit Num BestTrack VortTrack).
Implicit Types (bt : BestTrack) (vt : VortTrack) (m : Match_t) (j : visit_t).
Implicit Types (ms : matches_t Num BestTrack VortTrack).
Implicit Types (idx : gmap date (list VortTrack)).

Lemma visit_match_Ok j (om : option Match_t) m' :
  visit_match j om = Ok m' ->
  is_Some (visit_dist j) /\
  (om = None -> bt_dates (jv_best j) <> [] /\ vt_dates (jv_vort j) <> []).
Proof.
  unfold visit_match, visit_dist, getitem. intros Hv. split.
  - destruct om as [m|]; simpl in Hv.
    + destruct (od_get _ _); [by eexists | done].
    + destruct (Match_init _ _); simpl in Hv; [|done].
      destruct (od_get _ _); [by eexists | done].
  - intros ->. simpl in Hv.
    destruct (Match_init _ _) as [m0|] eqn:Hm0; [|done].
    apply Match_init_fields in Hm0 as (? & ? & ? & ? & Hb & Hv0 & _).
    split; intros Hnil; by rewrite Hnil in *.
Qed.

(* a run that raises nothing went through joint visits that raise nothing *)
Lemma run_visits_ok (js : list visit_t) ms0 ms :
  (forall bt vt, is_Some (od_get (bt, vt) ms0) ->
     bt_dates bt <> [] /\ vt_dates vt <> []) ->
  for_each visit_jv js ms0 = Ok ms -> Forall visit_ok js.
Proof.
  revert ms0. induction js as [|j js IH]; intros ms0 Hinv; simpl; [done|].
  rewrite visit_jv_visit_match.
  destruct (visit_match j (od_get (jv_key j) ms0)) as [m1|] eqn:Hm1;
    simpl; [|done].
  intros Hrun. apply visit_match_Ok in Hm1 as [Hd Hnew].
  assert (bt_dates (jv_best j) <> [] /\ vt_dates (jv_vort j) <> []) as Hdates.
  { destruct (od_get (jv_key j) ms0) eqn:Hget; [|by apply Hnew].
    apply Hinv. unfold jv_key in Hget. by rewrite Hget. }
  constructor; [by destruct Hdates|].
  eapply IH; [|exact Hrun]. intros bt vt. rewrite od_get_set.
  destruct (decide ((bt, vt) = jv_key j)) as [Heq|]; [|by apply Hinv].
  unfold jv_key in Heq. by simplify_eq.
Qed.

(* what a run that raises nothing leaves under each key *)
Lemma match_Ok_outcome idx (bts : list BestTrack) ms :
  match_ idx bts = Ok ms ->
  NoDup (od_keys ms) /\
  forall bt vt, pair_outcome (joint_visits idx bts) bt vt (od_get (bt, vt) ms).
Proof.
  rewrite match_joint_visits. intros Hrun.
  destruct (run_outcome (joint_visits idx bts)) as (ms' & Hrun' & Hnd & Hinv).
  { eapply run_visits_ok; [|exact Hrun]. by intros bt vt [? ?]. }
  rewrite Hrun in Hrun'. by simplify_eq.
Qed.

Lemma last_running_totals (c : Num) (ds : list Num) :
  default c (last (running_totals c ds)) = foldl num_add c ds.
Proof.
  revert c. induction ds as [|d ds IH]; intros c; simpl; [done|].
  rewrite <- IH. destruct (running_totals (num_add c d) ds) as [|t ts] eqn:Hts;
    [done|].
  rewrite (last_cons_cons (num_add c d)).
  by destruct (last (t :: ts)) eqn:Hl; [|apply last_None in Hl].
Qed.

(** X1: the engine raises nothing exactly when every candidate that the
    index lists under a date of a supplied best track has a position stored
    for that date and a non-empty list of dates. *)
Theorem match_raises_iff_inconsistent_on_visited_dates idx
    (bts : list BestTrack) :
  is_Ok (match_ idx bts) <->
  forall bt obs vts vt,
    bt ∈ bts -> obs ∈ observations bt ->
    idx !! obs.2.2 = Some vts -> vt ∈ vts ->
    vt_dates vt <> [] /\ is_Some (od_get obs.2.2 (vortmax_by_date vt)).
Proof.
  split.
  - intros [ms Hrun] bt [lon [lat d]] vts vt Hbt Hobs Hd Hvt. simpl in *.
    rewrite match_joint_visits in Hrun.
    apply run_visits_ok in Hrun; [|by intros ?? [? ?]].
    rewrite Forall_forall in Hrun.
    destruct (Hrun (mkVisit bt lon lat d vt)) as (_ & Hdates & [x Hx]).
    { apply elem_of_joint_visits. by exists vts. }
    split; [done|]. unfold visit_dist in Hx. simpl in Hx.
    destruct (od_get d (vortmax_by_date vt)); [by eexists | done].
  - intros Hcons. rewrite match_joint_visits.
    destruct (run_outcome (joint_visits idx bts)) as (ms & Hrun & _);
      [|by exists ms].
    apply Forall_forall. intros j (vts & Hbt & Hobs & Hd & Hvt)%elem_of_joint_visits.
    destruct (Hcons _ _ _ _ Hbt Hobs Hd Hvt) as [Hdates [p Hp]]. simpl in Hp.
    split_and!; [|done|].
    + apply elem_of_zip_r, elem_of_zip_r in Hobs.
      intros Hnil. rewrite Hnil in Hobs. by apply elem_of_nil in Hobs.
    + unfold visit_dist. rewrite Hp. by eexists.
Qed.

(** X2: the mapping returned by the engine has a Match for a (best track,
    vorticity track) pair exactly when the two share a date; a candidate
    never listed under a date of the best track gets none. *)
Theorem match_has_pair_iff_share_a_date idx (bts : list BestTrack) ms bt vt :
  match_ idx bts = Ok ms ->
  is_Some (od_get (bt, vt) ms) <-> share_a_date idx bts bt vt.
Proof.
  intros [_ Hinv]%match_Ok_outcome. specialize (Hinv bt vt).
  rewrite share_a_date_pair_visits. unfold pair_outcome, pair_visits in *.
  destruct (od_get (bt, vt) ms) as [m|].
  - destruct Hinv as [Hne _]. split; [done | by eexists].
  - split; [by intros [? ?] | done].
Qed.

(** X3: after a run, the cumulative distance of a Match is the sum, taken
    from 0 in visiting order, of the distances of the joint visits of its
    pair, its overlap is their number, and its average distance is the
    quotient of the two. *)
Theorem match_cum_dist_is_sum_of_visit_distances idx (bts : list BestTrack) ms
    bt vt m :
  match_ idx bts = Ok ms ->
  od_get (bt, vt) ms = Some m ->
  exists ds,
    mapM visit_dist (pair_visits idx bts bt vt) = Some ds /\
    cum_dist m = foldl num_add (num_of_int 0) ds /\
    overlap m = Z.of_nat (length ds) /\
    av_dist m =
      Ok (num_div_int (foldl num_add (num_of_int 0) ds) (Z.of_nat (length ds))).
Proof.
  intros [_ Hinv]%match_Ok_outcome Hget. specialize (Hinv bt vt).
  rewrite Hget in Hinv. destruct Hinv as (Hne & m0 & ds & _ & Hds & ->).
  exists ds. unfold match_after, totals, av_dist; simpl.
  rewrite last_running_totals. split_and!; [done..|].
  rewrite decide_False; [done|].
  apply mapM_Some, Forall2_length in Hds.
  destruct ds; [|done]. by destruct (filter _ _).
Qed.

(** X4: the engine returns the empty mapping exactly when no best track and
    candidate share a date (no supplied track, no observation, or no date of
    theirs in the index). *)
Theorem match_empty_iff_nothing_shared idx (bts : list BestTrack) :
  match_ idx bts = Ok [] <-> forall bt vt, ~ share_a_date idx bts bt vt.
Proof.
  split.
  - intros Hrun bt vt Hshare.
    apply match_Ok_outcome in Hrun as [_ Hinv]. specialize (Hinv bt vt).
    apply share_a_date_pair_visits in Hshare. by apply Hshare.
  - intros Hnone. rewrite match_joint_visits.
    destruct (joint_visits idx bts) as [|j js] eqn:Hjs; [done|].
    destruct (Hnone (jv_best j) (jv_vort j)).
    apply share_a_date_pair_visits. unfold pair_visits. rewrite Hjs.
    by rewrite filter_cons_True.
Qed.

(** X5: one iteration of the innermost loop touches only the binding of its
    own pair: every other pair keeps its Match as it is, and the dictionary
    keeps its keys in order, with the pair added at the end if it is new. *)
Theorem visit_touches_only_its_pair ms bt (lon lat : Num) (d : date) vt ms' :
  visit bt lon lat d ms vt = Ok ms' ->
  (forall k, k <> (bt, vt) -> od_get k ms' = od_get k ms) /\
  is_Some (od_get (bt, vt) ms') /\
  od_keys ms' =
    if od_get (bt, vt) ms is Some _ then od_keys ms
    else od_keys ms ++ [(bt, vt)].
Proof.
  intros Hv.
  pose proof (visit_jv_visit_match ms (mkVisit bt lon lat d vt)) as Hvm.
  unfold visit_jv, jv_key in Hvm. simpl in Hvm. rewrite Hv in Hvm.
  destruct (visit_match _ _) as [m1|]; [|done]. ok_inv Hvm.
  split_and!.
  - intros k Hk. by rewrite od_get_set, decide_False.
  - rewrite od_get_set, decide_True by done. by eexists.
  - apply od_keys_set.
Qed.

Lemma od_get_Some_keys {K V} `{EqDecision K} (k : K) (d : odict K V) :
  is_Some (od_get k d) <-> k ∈ od_keys d.
Proof.
  destruct (od_get k d) eqn:Hget.
  - split; [|by eexists]. intros _.
    destruct (decide (k ∈ od_keys d)) as [|Hn]; [done|].
    apply od_get_None in Hn. congruence.
  - apply od_get_None in Hget. split; [by intros [? ?] | done].
Qed.

(* the keys of a run, against the keys of its joint visits *)
Lemma run_key_order (js : list visit_t) ms :
  for_each visit_jv js [] = Ok ms ->
  (forall k, k ∈ od_keys ms <-> k ∈ jv_key <$> js) /\
  forall i i' k1 k2,
    od_keys ms !! i = Some k1 -> od_keys ms !! i' = Some k2 -> (i < i')%nat ->
    exists a, (jv_key <$> js) !! a = Some k1 /\
      forall b, (jv_key <$> js) !! b = Some k2 -> (a < b)%nat.
Proof.
  revert ms. induction js as [|j js IH] using rev_ind; intros ms.
  - intros [= <-]. split; [done|]. intros i i' k1 k2 Hi.
    by destruct i.
  - rewrite for_each_app.
    destruct (for_each visit_jv js []) as [ms1|] eqn:Hrun1; simpl; [|done].
    destruct (IH ms1 eq_refl) as [Hmem Hord]. clear IH.
    rewrite visit_jv_visit_match.
    destruct (visit_match j _) as [m1|]; simpl; [|done]. intros [= <-].
    rewrite fmap_app. csimpl.
    assert (forall a b k1 k2,
              (jv_key <$> js) !! a = Some k1 ->
              (forall b, (jv_key <$> js) !! b = Some k2 -> (a < b)%nat) ->
              ((jv_key <$> js) ++ [jv_key j]) !! b = Some k2 -> (a < b)%nat)
      as Hsnoc.
    { intros a b k1 k2 Ha Hb Hk2. apply lookup_lt_Some in Ha as Hlt.
      destruct (decide (b < length (jv_key <$> js))%nat) as [Hin|Hout]; [|lia].
      rewrite lookup_app_l in Hk2 by done. by apply Hb. }
    rewrite od_keys_set.
    destruct (od_get (jv_key j) ms1) as [m0|] eqn:Hget.
    + assert (jv_key j ∈ od_keys ms1) as Hin
        by (apply od_get_Some_keys; by rewrite Hget).
      split.
      * intros k. rewrite elem_of_app, list_elem_of_singleton, Hmem.
        split; [by left|]. intros [?| ->]; [done | by apply Hmem].
      * intros i i' k1 k2 Hi Hi' Hlt.
        destruct (Hord i i' k1 k2 Hi Hi' Hlt) as (a & Ha & Hb).
        exists a. split; [by apply lookup_app_l_Some|]. intros b. by eapply Hsnoc.
    + assert (jv_key j ∉ jv_key <$> js) as Hnew.
      { rewrite <- Hmem. by apply od_get_None. }
      split.
      * intros k. by rewrite !elem_of_app, Hmem.
      * intros i i' k1 k2 Hi Hi' Hlt.
        destruct (decide (i' < length (od_keys ms1))%nat) as [Hin|Hout].
        -- rewrite lookup_app_l in Hi, Hi' by lia.
           destruct (Hord i i' k1 k2 Hi Hi' Hlt) as (a & Ha & Hb).
           exists a. split; [by apply lookup_app_l_Some|]. intros b. by eapply Hsnoc.
        -- apply lookup_lt_Some in Hi' as Hlen. rewrite length_app in Hlen.
           simpl in Hlen. assert (i' = length (od_keys ms1)) as -> by lia.
           rewrite lookup_app_l in Hi by lia.
           rewrite list_lookup_middle in Hi' by done. simplify_eq.
           assert (k1 ∈ jv_key <$> js) as [a Ha]%list_elem_of_lookup.
           { apply Hmem. by eapply list_elem_of_lookup_2. }
           exists a. split; [by apply lookup_app_l_Some|]. intros b Hb.
           apply lookup_lt_Some in Ha as Hlta.
           destruct (decide (b < length (jv_key <$> js))%nat) as [Hbin|]; [|lia].
           rewrite lookup_app_l in Hb by done.
           destruct Hnew. by eapply list_elem_of_lookup_2.
Qed.

(** X6: the mapping returned by the engine lists every pair once, in the
    order in which the pairs were first jointly visited: a key stands before
    another one only if the first pair was visited before any visit of the
    second. *)
Theorem match_keys_in_first_visit_order idx (bts : list BestTrack) ms :
  match_ idx bts = Ok ms ->
  NoDup (od_keys ms) /\
  forall i i' k1 k2,
    od_keys ms !! i = Some k1 -> od_keys ms !! i' = Some k2 -> (i < i')%nat ->
    exists a, (jv_key <$> joint_visits idx bts) !! a = Some k1 /\
      forall b, (jv_key <$> joint_visits idx bts) !! b = Some k2 -> (a < b)%nat.
Proof.
  intros Hrun. split; [by apply match_Ok_outcome in Hrun as [? _]|].
  rewrite match_joint_visits in Hrun. by apply run_key_order in Hrun as [_ ?].
Qed.

Lemma sorted_head_le (l : list Z) (a x : Z) :
  StronglySorted Z.le l -> head l = Some a -> x ∈ l -> a <= x.
Proof.
  intros Hs Ha Hx. destruct Hs as [|b l _ Hall]; [done|]. simplify_eq/=.
  apply elem_of_cons in Hx as [->|Hx]; [lia|].
  rewrite Forall_forall in Hall. by apply Hall.
Qed.

Lemma sorted_le_last (l : list Z) (b x : Z) :
  StronglySorted Z.le l -> last l = Some b -> x ∈ l -> x <= b.
Proof.
  intros Hs. revert x. induction Hs as [|c l Hs IH Hall]; [done|].
  intros x Hb Hx. destruct l as [|c' l']; simplify_eq/=.
  - apply list_elem_of_singleton in Hx. lia.
  - apply elem_of_cons in Hx as [->|Hx]; [|by apply IH].
    rewrite Forall_forall in Hall. etrans; [apply (Hall c'); left|].
    apply IH; [done | left].
Qed.

(** X7: when both tracks list their dates in chronological order, the
    overlap window that the constructor computes contains every date the two
    lists have in common, so it is not empty when they meet. *)
Theorem overlap_window_contains_common_dates bt vt m (d : date) :
  Match_init bt vt = Ok m ->
  StronglySorted Z.le (bt_dates bt) -> StronglySorted Z.le (vt_dates vt) ->
  d ∈ bt_dates bt -> d ∈ vt_dates vt ->
  overlap_start m <= d <= overlap_end m.
Proof.
  intros (b0 & v0 & b1 & v1 & Hb0 & Hv0 & Hb1 & Hv1 & ->)%Match_init_fields
         Hsb Hsv Hdb Hdv. simpl.
  pose proof (sorted_head_le _ _ _ Hsb Hb0 Hdb).
  pose proof (sorted_head_le _ _ _ Hsv Hv0 Hdv).
  pose proof (sorted_le_last _ _ _ Hsb Hb1 Hdb).
  pose proof (sorted_le_last _ _ _ Hsv Hv1 Hdv). lia.
Qed.

End EngineRuns.

(** * Further properties of the distance recomputation and the search *)

Lemma for_each_states_Forall {A S} (P Q : S -> Prop)
    (body : S -> A -> result S) (l : list A) (s : S) (tr : list S) :
  (forall s a s', P s -> body s a = Ok s' -> P s' /\ Q s') ->
  P s -> for_each_states body l s = Ok tr -> Forall Q tr.
Proof.
  intros Hstep. revert s tr. induction l as [|a l IH]; intros s tr Hs; simpl.
  - by intros [= <-].
  - destruct (body s a) as [s1|] eqn:Hb; simpl; [|done].
    destruct (for_each_states body l s1) as [tr1|] eqn:Htr; simpl; [|done].
    intros [= <-]. destruct (Hstep _ _ _ Hs Hb) as [Hs1 Hq].
    constructor; [done|]. by eapply IH.
Qed.

Section RecomputedDistance.
Context {Num BestTrack VortTrack : Type}.
Context `{!PyNum Num, !Geometry Num, !Smoother Num, !Grid Num}.
Context `{!BestTrackAPI Num BestTrack, !VortTrackAPI Num VortTrack}.

Implicit Types (bt : BestTrack) (vt : VortTrack) (st : search_state Num).
Implicit Types (vbd sd fd : odict date (Pos Num)).

Lemma cum_dist_overlap_fold vbd (acc : Num * Z)
    (l : list (Num * (Num * date))) :
  (foldl (cum_dist_step vbd) acc l).2 =
    acc.2 + Z.of_nat (length (filter (fun obs => obs.2.2 ∈ od_keys vbd) l)).
Proof.
  revert acc. induction l as [|[lon [lat d]] l IH]; intros acc; simpl; [lia|].
  rewrite IH. destruct (od_get d vbd) as [p|] eqn:Hget.
  - rewrite filter_cons_True; [simpl; lia|]. simpl.
    destruct (decide (d ∈ od_keys vbd)) as [|Hn]; [done|].
    apply od_get_None in Hn. congruence.
  - rewrite filter_cons_False; [done|]. simpl. by apply od_get_None.
Qed.

(** X8: the overlap that [_cum_dist] returns is the number of observations
    of the best track whose date is a key of the dictionary; dates that are
    missing are skipped, so the count lies between 0 and the number of
    observations. *)
Theorem cum_dist_overlap_counts_dated_observations bt vbd :
  (_cum_dist bt vbd).2 =
    Z.of_nat (length (filter (fun obs => obs.2.2 ∈ od_keys vbd)
                             (observations bt))) /\
  0 <= (_cum_dist bt vbd).2 <= Z.of_nat (length (observations bt)).
Proof.
  unfold _cum_dist. rewrite cum_dist_overlap_fold. simpl.
  split; [done|]. pose proof (length_filter
    (fun obs : Num * (Num * date) => obs.2.2 ∈ od_keys vbd) (observations bt)).
  lia.
Qed.

Lemma cum_dist_overlap_same_keys bt vbd vbd' :
  (forall k, k ∈ od_keys vbd <-> k ∈ od_keys vbd') ->
  (_cum_dist bt vbd).2 = (_cum_dist bt vbd').2.
Proof.
  intros Hkeys. unfold _cum_dist. rewrite !cum_dist_overlap_fold. simpl.
  do 3 f_equal. apply list_filter_iff. intros obs. apply Hkeys.
Qed.

Lemma elem_of_od_keys_set {K V} `{EqDecision K} (k k0 : K) (v : V)
    (d : odict K V) :
  k ∈ od_keys (od_set k0 v d) <-> k = k0 \/ k ∈ od_keys d.
Proof.
  rewrite od_keys_set. destruct (od_get k0 d) eqn:Hget.
  - split; [by right|]. intros [->|?]; [|done].
    destruct (decide (k0 ∈ od_keys d)) as [|Hn]; [done|].
    apply od_get_None in Hn. congruence.
  - rewrite elem_of_app, list_elem_of_singleton. tauto.
Qed.

(* refilling adds the dates of the vorticity track to the keys *)
Lemma fill_dicts_keys (sp fp : list (Pos Num)) (l : list (nat * date))
    sd fd sd' fd' :
  for_each (fill_dicts sp fp) l (sd, fd) = Ok (sd', fd') ->
  forall k, k ∈ od_keys fd' <-> k ∈ od_keys fd \/ k ∈ l.*2.
Proof.
  revert sd fd. induction l as [|[i d] l IH]; intros sd fd; csimpl.
  - intros [= <- <-] k. rewrite elem_of_nil. tauto.
  - destruct (fill_dicts sp fp (sd, fd) (i, d)) as [[sd1 fd1]|] eqn:Hf;
      simpl; [|done].
    unfold fill_dicts in Hf. simpl in Hf.
    destruct (item sp i) as [p|]; simpl in Hf; [|done].
    destruct (item fp i) as [p'|]; simpl in Hf; [|done].
    ok_inv Hf. intros Hrun k.
    rewrite (IH _ _ Hrun k), elem_of_od_keys_set, elem_of_cons. tauto.
Qed.

Lemma enumerate_snd {A} (l : list A) : (enumerate l).*2 = l.
Proof. unfold enumerate. apply snd_zip. by rewrite length_seq. Qed.

Lemma rescore_keys bt vt pos x q r st st1 res :
  rescore bt vt pos x q r st = Ok (st1, res) ->
  forall k, k ∈ od_keys (filtered_dict st1) <->
    k ∈ od_keys (filtered_dict st) \/ k ∈ od_keys (vortmax_by_date vt).
Proof.
  unfold rescore. destruct (process_data pos x q r) as [sp fp].
  destruct (for_each _ _ _) as [[sd fd]|] eqn:Hfill; simpl; [|done].
  destruct (_cum_dist bt sd), (_cum_dist bt fd).
  unfold mret, result_ret. intros [= <- <-] k. simpl.
  rewrite (fill_dicts_keys _ _ _ _ _ _ _ Hfill k). by rewrite enumerate_snd.
Qed.

(* a grid point reached with no foreign date in the filtered dictionary
   recomputes the overlap of the baseline *)
Lemma grid_point_overlap bt vt pos x q r st st' :
  (forall k, k ∈ od_keys (filtered_dict st) ->
     k ∈ od_keys (vortmax_by_date vt)) ->
  grid_point bt vt pos x q st r = Ok st' ->
  (forall k, k ∈ od_keys (filtered_dict st') ->
     k ∈ od_keys (vortmax_by_date vt)) /\
  recomputed_overlap bt st' = (_cum_dist bt (vortmax_by_date vt)).2.
Proof.
  intros Hsub (st1 & s & f & ov & Hr & Hst' & Hov)%grid_point_rescore.
  pose proof (rescore_keys _ _ _ _ _ _ _ _ _ Hr) as Hkeys.
  assert (filtered_dict st' = filtered_dict st1) as Hfd.
  { rewrite Hst'. by destruct (checks_keep_dicts ov q r s f st1). }
  unfold recomputed_overlap. rewrite Hfd. split.
  - intros k [?|?]%Hkeys; auto.
  - apply cum_dist_overlap_same_keys. intros k. rewrite Hkeys.
    split; [intros [?|?]; auto | by right].
Qed.

(** X9: in a search started by [_optimize], every grid point recomputes the
    same overlap, that of the baseline: the smoother moves the positions and
    not the dates.  The gate on six overlapping dates is thus decided by the
    raw tracks, once for the whole grid. *)
Theorem search_overlap_is_baseline_overlap bt vt pos x tr :
  grid_states bt vt pos x (initial_state bt vt) = Ok tr ->
  Forall (fun st =>
            recomputed_overlap bt st = (_cum_dist bt (vortmax_by_date vt)).2)
         tr.
Proof.
  unfold grid_states.
  apply (for_each_states_Forall
           (fun st => forall k, k ∈ od_keys (filtered_dict st) ->
                        k ∈ od_keys (vortmax_by_date vt))).
  - intros st [q r] st' Hsub Hgp. by eapply grid_point_overlap.
  - unfold initial_state. destruct (_cum_dist bt (vortmax_by_date vt)).
    simpl. by intros k ?%elem_of_nil.
Qed.

(** X10: for a pair with fewer than six overlapping dates the search cannot
    adopt anything.  When the smoother returns a position for every date,
    [_optimize] prints the baseline distance and the ratio of the baseline to
    itself and nothing else (or raises if that division does). *)
Theorem optimize_below_six_dates_prints_baseline_only bt vt x :
  (_cum_dist bt (vortmax_by_date vt)).2 < 6 ->
  first_item (vortmaxes vt) = Ok x ->
  (forall q r,
     (length (vortmax_by_date vt) <=
        length (process_data (vortmaxes vt) x q r).1)%nat /\
     (length (vortmax_by_date vt) <=
        length (process_data (vortmaxes vt) x q r).2)%nat) ->
  _optimize bt vt =
    (let b := (_cum_dist bt (vortmax_by_date vt)).1 in
     ratio ← num_div b b; mret (PyNone, [baseline_line b; ratio_line ratio])).
Proof.
  intros Hov Hx Hlen.
  destruct (initial_state_fields bt vt) as (Hmin & _ & Hout).
  assert (exists st,
            search bt vt (vortmaxes vt) x (initial_state bt vt) = Ok st /\
            (forall k, k ∈ od_keys (filtered_dict st) ->
               k ∈ od_keys (vortmax_by_date vt)) /\
            min_d st = min_d (initial_state bt vt) /\
            stdout st = stdout (initial_state bt vt))
    as (st & Hsearch & _ & Hm & Hs).
  { rewrite search_grid.
    apply (for_each_total
             (fun st => (forall k, k ∈ od_keys (filtered_dict st) ->
                           k ∈ od_keys (vortmax_by_date vt)) /\
                        min_d st = min_d (initial_state bt vt) /\
                        stdout st = stdout (initial_state bt vt))).
    - intros st [q r] _ (Hsub & Hm & Hs). simpl.
      destruct (Hlen q r) as [Hsp Hfp].
      destruct (rescore_total bt vt (vortmaxes vt) x q r st Hsp Hfp)
        as [[st1 [[s f] ov]] Hr].
      assert (exists st', grid_point bt vt (vortmaxes vt) x q st r = Ok st')
        as [st' Hgp] by (unfold grid_point; rewrite Hr; by eexists).
      exists st'. split; [done|].
      destruct (grid_point_overlap _ _ _ _ _ _ _ _ Hsub Hgp) as [Hsub' Hov'].
      split; [done|].
      destruct (grid_point_gate _ _ _ _ _ _ _ _ Hgp) as (-> & _ & ->);
        [by rewrite Hov'|done].
    - split; [|done]. unfold initial_state.
      destruct (_cum_dist bt (vortmax_by_date vt)). simpl.
      by intros k ?%elem_of_nil. }
  unfold _optimize. rewrite Hmin, Hout in *.
  destruct (_cum_dist bt (vortmax_by_date vt)) as [b ov]. simpl in *.
  rewrite Hx. simpl. rewrite Hsearch. simpl. rewrite Hm, Hs.
  by destruct (num_div b b).
Qed.

End RecomputedDistance.

Section EngineAndBaseline.
Context {Num BestTrack VortTrack : Type}.
Context `{!PyNum Num, !Geometry Num}.
Context `{!EqDecision BestTrack, !EqDecision VortTrack}.
Context `{!BestTrackAPI Num BestTrack, !VortTrackAPI Num VortTrack}.

Implicit Types (bt : BestTrack) (vt : VortTrack).
Implicit Types (idx : gmap date (list VortTrack)).

Lemma pair_visits_of_date_length idx bt vt (obs : Num * (Num * date)) :
  length (filter (fun j => jv_key j = (bt, vt)) (visits_of_date idx bt obs)) =
  length (filter (fun v => v = vt) (default [] (idx !! obs.2.2))).
Proof.
  unfold visits_of_date. induction (default [] (idx !! obs.2.2)) as [|v vts IH];
    csimpl; [done|].
  destruct (decide (v = vt)) as [->|Hne].
  - rewrite !filter_cons_True by done. simpl. by rewrite IH.
  - rewrite !filter_cons_False; [done..|]. unfold jv_key. simpl. congruence.
Qed.

Lemma pair_visits_single_track_length idx bt vt :
  (forall d, length (filter (fun v => v = vt) (default [] (idx !! d))) =
             if decide (d ∈ od_keys (vortmax_by_date vt)) then 1%nat else 0%nat) ->
  length (pair_visits idx [bt] bt vt) =
  length (filter (fun obs => obs.2.2 ∈ od_keys (vortmax_by_date vt))
                 (observations bt)).
Proof.
  intros Hidx. unfold pair_visits, joint_visits, visits_of_track. csimpl.
  rewrite app_nil_r.
  induction (observations bt) as [|obs l IH]; csimpl; [done|].
  rewrite filter_app, length_app, IH, pair_visits_of_date_length, Hidx.
  destruct (decide (obs.2.2 ∈ od_keys (vortmax_by_date vt))).
  - by rewrite filter_cons_True.
  - by rewrite filter_cons_False.
Qed.

(** X11: the engine and the baseline of the search count the same dates.
    When the index lists a vorticity track once under each date it has a
    vorticity maximum for, and under no other, the overlap of the Match that
    the engine builds for a best track and that vorticity track is the
    overlap [_cum_dist] returns for the pair. *)
Theorem match_overlap_is_baseline_overlap idx bt vt ms m :
  (forall d, length (filter (fun v => v = vt) (default [] (idx !! d))) =
             if decide (d ∈ od_keys (vortmax_by_date vt)) then 1%nat else 0%nat) ->
  match_ idx [bt] = Ok ms ->
  od_get (bt, vt) ms = Some m ->
  overlap m = (_cum_dist bt (vortmax_by_date vt)).2.
Proof.
  intros Hidx [_ Hinv]%match_Ok_outcome Hget. specialize (Hinv bt vt).
  rewrite Hget in Hinv. destruct Hinv as (_ & m0 & ds & _ & Hds & ->).
  unfold match_after, _cum_dist; simpl. rewrite cum_dist_overlap_fold. simpl.
  apply mapM_Some, Forall2_length in Hds. rewrite <- Hds.
  fold (pair_visits idx [bt] bt vt).
  by rewrite (pair_visits_single_track_length idx bt vt Hidx).
Qed.

End EngineAndBaseline.

(** * Further properties of the aggregator *)

Section AggregatorErrors.
Context {Num BestTrack VortTrack : Type}.
Context `{Countable BestTrack}.

Local Abbreviation Match_t := (Match Num BestTrack VortTrack).
Implicit Types (bt : BestTrack) (m : Match_t) (l : list Match_t).
Implicit Types (cm : gmap BestTrack (list Match_t)).

Lemma empty_lists_is_Some (bts : list BestTrack) bt :
  is_Some ((empty_lists bts : gmap BestTrack (list Match_t)) !! bt) <->
  bt ∈ bts.
Proof.
  unfold empty_lists. rewrite empty_lists_from, lookup_empty.
  destruct (decide (bt ∈ bts)); split; [done | by eexists | by intros [? ?] | done].
Qed.

(* filing Matches adds no key, and needs the key of each of them *)
Lemma append_matches_keys l cm cm' :
  for_each append_match l cm = Ok cm' ->
  (forall bt, is_Some (cm' !! bt) <-> is_Some (cm !! bt)) /\
  Forall (fun m => is_Some (cm !! best_track m)) l.
Proof.
  revert cm. induction l as [|m l IH]; intros cm; simpl.
  - by intros [= <-].
  - destruct (append_match cm m) as [cm1|] eqn:Hm; simpl; [|done].
    unfold append_match in Hm.
    destruct (cm !! best_track m) as [old|] eqn:Hold; [|done].
    injection Hm as <-. intros [Hkeys Hall]%IH.
    assert (forall bt, is_Some (<[best_track m := old ++ [m]]> cm !! bt) <->
                       is_Some (cm !! bt)) as Hins.
    { intros bt. destruct (decide (bt = best_track m)) as [->|Hne].
      - rewrite lookup_insert_eq, Hold. split; by eexists.
      - by rewrite lookup_insert_ne. }
    split.
    + intros bt. by rewrite Hkeys, Hins.
    + constructor; [by rewrite Hold; eexists|].
      eapply Forall_impl; [exact Hall|]. intros m'. simpl. apply Hins.
Qed.

Lemma combined_match_Ok_supplied (bts : list BestTrack)
    (all_matches : list (list Match_t)) cm0 cm :
  for_each (fun cm ms => for_each append_match ms cm) all_matches cm0 = Ok cm ->
  Forall (Forall (fun m => is_Some (cm0 !! best_track m))) all_matches.
Proof.
  revert cm0. induction all_matches as [|ms mss IH]; intros cm0; simpl; [done|].
  destruct (for_each append_match ms cm0) as [cm1|] eqn:Hms; simpl; [|done].
  apply append_matches_keys in Hms as [Hkeys Hall]. intros Hrest%IH.
  constructor; [done|]. eapply Forall_impl; [exact Hrest|].
  intros ms' Hms'. simpl in *. eapply Forall_impl; [exact Hms'|].
  intros m. apply Hkeys.
Qed.

Lemma append_match_error cm m e : append_match cm m = Raise e -> e = KeyError.
Proof. unfold append_match. destruct (cm !! best_track m); congruence. Qed.

Lemma for_each_error {A S} (body : S -> A -> result S) (l : list A) (s : S)
    (e0 e : exn) :
  (forall s a e, body s a = Raise e -> e = e0) ->
  for_each body l s = Raise e -> e = e0.
Proof.
  intros Hbody. revert s. induction l as [|a l IH]; intros s; simpl; [done|].
  destruct (body s a) as [s1|e1] eqn:Hb; simpl; [apply IH|].
  intros [= <-]. by eapply Hbody.
Qed.

(** X12: the aggregator raises nothing exactly when every Match it is given
    refers to one of the supplied best tracks; a Match of any other best
    track makes it raise KeyError, the only exception it raises. *)
Theorem combined_match_needs_supplied_tracks (bts : list BestTrack)
    (all_matches : list (list Match_t)) :
  (is_Ok (combined_match bts all_matches) <->
   Forall (Forall (fun m => best_track m ∈ bts)) all_matches) /\
  (forall e, combined_match bts all_matches = Raise e -> e = KeyError).
Proof.
  split; [split|].
  - intros [cm Hcm]. unfold combined_match in Hcm.
    apply (combined_match_Ok_supplied bts) in Hcm.
    eapply Forall_impl; [exact Hcm|]. intros ms Hms. simpl in *.
    eapply Forall_impl; [exact Hms|]. intros m. apply empty_lists_is_Some.
  - intros Hall. destruct (combined_match_grouped bts all_matches Hall)
      as (cm & Hcm & _). by exists cm.
  - intros e. unfold combined_match. apply for_each_error.
    intros cm ms e'. apply for_each_error. apply append_match_error.
Qed.

(** X13: only the set of supplied best tracks matters to the aggregator:
    listing them in another order, or listing one twice, changes nothing. *)
Theorem combined_match_ignores_order_of_tracks (bts bts' : list BestTrack)
    (all_matches : list (list Match_t)) :
  (forall bt, bt ∈ bts <-> bt ∈ bts') ->
  combined_match bts all_matches = combined_match bts' all_matches.
Proof.
  intros Hsame. unfold combined_match. f_equal.
  apply map_eq. intros bt. unfold empty_lists. rewrite !empty_lists_from.
  destruct (decide (bt ∈ bts)) as [Hin|Hout].
  - by rewrite decide_True by (by apply Hsame).
  - by rewrite decide_False by (by rewrite <- Hsame).
Qed.

End AggregatorErrors.

(** * Properties of the task schedule *)

Module PyroFacts.
Import Pyro.

Implicit Types (s : PyroTaskSchedule) (t task : PyroTask) (c : Z * Z).
Implicit Types (y em n : Z).

Lemma elem_of_range (a b x : Z) : x ∈ range a b <-> a <= x < b.
Proof. unfold range. rewrite elem_of_seqZ. lia. Qed.

Lemma elem_of_cells s c :
  c ∈ cells s <->
  start_year s <= c.1 <= end_year s /\ 0 <= c.2 < num_ensemble_members s.
Proof.
  unfold cells. rewrite list_elem_of_bind. split.
  - intros (y & (em & ->%list_elem_of_singleton & Hem)%list_elem_of_bind & Hy).
    apply elem_of_range in Hy, Hem. simpl. lia.
  - intros [Hy Hem]. exists c.1. rewrite elem_of_range. split; [|lia].
    apply list_elem_of_bind. exists c.2. rewrite elem_of_range.
    split; [|lia]. destruct c. left.
Qed.

Lemma NoDup_cells s : NoDup (cells s).
Proof.
  unfold cells. apply NoDup_bind; [| |apply NoDup_seqZ].
  - intros y1 y2 c _ _ (em1 & ->%list_elem_of_singleton & _)%list_elem_of_bind
           (em2 & [= -> _]%list_elem_of_singleton & _)%list_elem_of_bind. done.
  - intros y _. apply NoDup_bind; [| |apply NoDup_seqZ].
    + by intros em1 em2 c _ _ ->%list_elem_of_singleton
                [= ->]%list_elem_of_singleton.
    + intros em _. apply NoDup_singleton.
Qed.

Lemma PyroTask_init_vort_track y em :
  PyroTask_init y em "vort_track" = Return (fresh_task y em).
Proof. reflexivity. Qed.

Lemma year_tasks_from y (l : list Z) (acc : list PyroTask) :
  loop (fun tasks em => t ← PyroTask_init y em "vort_track";
                        mret (tasks ++ [t])) l acc =
    Return (acc ++ (fresh_task y <$> l)).
Proof.
  revert acc. induction l as [|em l IH]; intros acc; csimpl.
  - by rewrite app_nil_r.
  - rewrite IH. by rewrite <- (assoc_L (++)).
Qed.

Lemma year_tasks_fresh y n :
  year_tasks y n = Return (fresh_task y <$> range 0 n).
Proof. unfold year_tasks. by rewrite year_tasks_from. Qed.

Lemma od_set_fresh {K V} `{EqDecision K} (k : K) (v : V) (d : odict K V) :
  k ∉ od_keys d -> od_set k v d = d ++ [(k, v)].
Proof.
  unfold od_keys. induction d as [|[k0 v0] d IH]; csimpl; [done|].
  intros [Hne Hnin]%not_elem_of_cons. rewrite decide_False by done.
  by rewrite IH.
Qed.

Lemma schedule_from n (ys : list Z) (d : odict Z (list PyroTask)) :
  NoDup ys -> (forall y, y ∈ ys -> y ∉ od_keys d) ->
  loop (fun sch y => tasks ← year_tasks y n; mret (od_set y tasks sch)) ys d =
    Return (d ++ ((fun y => (y, fresh_task y <$> range 0 n)) <$> ys)).
Proof.
  intros Hnd. revert d. induction Hnd as [|y ys Hy Hnd IH]; intros d Hfresh.
  - simpl. by rewrite app_nil_r.
  - cbn [loop]. rewrite year_tasks_fresh. simpl.
    rewrite od_set_fresh by (apply Hfresh; left).
    rewrite IH; [by rewrite <- (assoc_L (++))|].
    intros y' Hy'. unfold od_keys. rewrite fmap_app, elem_of_app. csimpl.
    intros [Hin|Hin%list_elem_of_singleton]; [|by subst].
    by apply (Hfresh y'); [right|].
Qed.

(** X14: the constructor of the schedule raises nothing and files the years
    from [start_year] to [end_year] in order (none when the range is empty),
    each with one outstanding 'vort_track' task per ensemble member,
    numbered from 0. *)
Theorem schedule_init_files_every_year_and_member (a b n : Z) :
  PyroTaskSchedule_init a b n =
    Return (mkSchedule a b n
              ((fun y => (y, fresh_task y <$> range 0 n)) <$> range a (b + 1))).
Proof.
  unfold PyroTaskSchedule_init.
  rewrite schedule_from; [done|apply NoDup_seqZ|].
  by intros y _ ?%elem_of_nil.
Qed.

Lemma od_get_fmap_key {V} (f : Z -> V) (ys : list Z) y :
  y ∈ ys -> od_get y ((fun y => (y, f y)) <$> ys) = Some (f y).
Proof.
  induction ys as [|y0 ys IH]; csimpl; [by intros ?%elem_of_nil|].
  intros Hin. destruct (decide (y = y0)) as [->|Hne]; [done|].
  apply IH. by apply elem_of_cons in Hin as [?|?].
Qed.

Lemma position_nonneg {A} (l : list A) (i : Z) :
  0 <= i -> position l i =
    if decide (i < Z.of_nat (length l)) then Some (Z.to_nat i) else None.
Proof.
  intros Hi. unfold position. destruct (decide (i < Z.of_nat (length l))).
  - by rewrite decide_True by lia.
  - rewrite decide_False by lia. by rewrite decide_False by lia.
Qed.

Lemma position_lt {A} (l : list A) (i : Z) (k : nat) :
  position l i = Some k -> (k < length l)%nat.
Proof.
  unfold position. repeat case_decide; intros [= <-]; lia.
Qed.

(* the task a fresh schedule holds in a cell *)
Lemma fresh_task_at (a b n : Z) c :
  a <= c.1 <= b -> 0 <= c.2 < n ->
  task_at (mkSchedule a b n
             ((fun y => (y, fresh_task y <$> range 0 n)) <$> range a (b + 1))) c =
    Return (fresh_task c.1 c.2).
Proof.
  intros Hy Hem. unfold task_at, dict_item. simpl.
  rewrite od_get_fmap_key by (apply elem_of_range; lia). simpl.
  unfold list_item. rewrite position_nonneg by lia. unfold range.
  rewrite length_fmap, length_seqZ.
  rewrite decide_True by lia. simpl.
  rewrite list_lookup_fmap.
  rewrite lookup_seqZ_lt by lia. simpl. do 2 f_equal. lia.
Qed.

(** X15: a fresh schedule hands out the task of the first year and of
    ensemble member 0, and nothing when it has no year or no ensemble
    member. *)
Theorem fresh_schedule_starts_with_first_task (a b n : Z) s :
  PyroTaskSchedule_init a b n = Return s ->
  get_next_outstanding s =
    Return (if decide (a <= b /\ 0 < n) then Some (fresh_task a 0) else None).
Proof.
  unfold PyroTaskSchedule_init.
  rewrite schedule_from; [|apply NoDup_seqZ|by intros y _ ?%elem_of_nil].
  intros [= <-]. unfold get_next_outstanding.
  destruct (cells _) as [|c cs] eqn:Hcells.
  - rewrite decide_False; [done|]. intros [Hab Hn].
    assert ((a, 0) ∈ cells (mkSchedule a b n
              ((fun y => (y, fresh_task y <$> range 0 n)) <$> range a (b + 1))))
      as Hin by (apply elem_of_cells; simpl; lia).
    rewrite Hcells in Hin. by apply elem_of_nil in Hin.
  - assert (c ∈ c :: cs) as Hin by left. rewrite <- Hcells in Hin.
    apply elem_of_cells in Hin as [Hy Hem]. simpl in Hy, Hem.
    rewrite decide_True by lia.
    assert (c = (a, 0)) as ->.
    { unfold cells in Hcells. simpl in Hcells. unfold range in Hcells.
      rewrite (seqZ_cons a) in Hcells by lia. csimpl in Hcells.
      rewrite (seqZ_cons 0) in Hcells by lia. csimpl in Hcells.
      by injection Hcells as <- _. }
    simpl. rewrite fresh_task_at by (simpl; lia). done.
Qed.

(** X16: [get_next_outstanding] returns the first outstanding task in the
    order of years and ensemble members: every cell before it holds a task
    that is not outstanding; it returns None only when no cell holds an
    outstanding task. *)
Theorem next_outstanding_is_first_in_order s :
  (forall t, get_next_outstanding s = Return (Some t) ->
     exists cs1 c cs2,
       cells s = cs1 ++ c :: cs2 /\ task_at s c = Return t /\
       _status t = "outstanding"%string /\
       forall c', c' ∈ cs1 -> ~ is_outstanding s c') /\
  (get_next_outstanding s = Return None ->
     forall c, c ∈ cells s -> ~ is_outstanding s c).
Proof.
  unfold get_next_outstanding. induction (cells s) as [|c cs [IHsome IHnone]].
  - split; [done|]. by intros _ c ?%elem_of_nil.
  - simpl. destruct (task_at s c) as [t0|e] eqn:Ht0; simpl.
    + destruct (decide (_status t0 = "outstanding"%string)) as [Hs|Hs].
      * split; [|done]. intros t [= <-]. exists [], c, cs.
        split_and!; [done..|]. by intros c' ?%elem_of_nil.
      * assert (~ is_outstanding s c) as Hc.
        { intros (t' & Ht' & Hs'). rewrite Ht0 in Ht'. by simplify_eq. }
        split.
        -- intros t (cs1 & c1 & cs2 & -> & Ht & Hst & Hbefore)%IHsome.
           exists (c :: cs1), c1, cs2. split_and!; [done..|].
           intros c' [->|?]%elem_of_cons; auto.
        -- intros Hnone c' [->|?]%elem_of_cons; [done|]. by apply IHnone.
    + split; [done|done].
Qed.

Lemma position_Some {A} (l : list A) (i : Z) :
  is_Some (position l i) <->
  - Z.of_nat (length l) <= i < Z.of_nat (length l).
Proof.
  unfold position. repeat case_decide; split; try lia; try (by eexists);
    by intros [? ?].
Qed.

(* what a successful update writes *)
Lemma update_task_status_Return s task tasks (i : nat) :
  od_get (year task) (_schedule s) = Some tasks ->
  position tasks (ensemble_member task) = Some i ->
  _status task ∈ STATUSES.*1 ->
  exists target,
    tasks !! i = Some target /\
    update_task_status s task =
      Return (mkSchedule (start_year s) (end_year s) (num_ensemble_members s)
                (od_set (year task)
                   (<[i := mkTask (year target) (ensemble_member target)
                                  (_task target) (_status task)]> tasks)
                   (_schedule s))).
Proof.
  intros Hy Hi Hst. apply position_lt in Hi as Hlt.
  destruct (lookup_lt_is_Some_2 tasks i Hlt) as [target Htarget].
  exists target. split; [done|].
  unfold update_task_status, dict_item, list_item. rewrite Hy. simpl.
  rewrite Hi. simpl. rewrite Htarget. simpl.
  unfold set_status. by rewrite decide_True.
Qed.

(** X17: [update_task_status] raises KeyError for a year that the schedule
    does not hold, IndexError for an ensemble member outside of the list of
    that year (below minus its length, or not below its length), and an
    Exception naming the status when that is not one of STATUSES; in that
    order, and in no other case. *)
Theorem update_task_status_errors s task :
  (od_get (year task) (_schedule s) = None ->
   update_task_status s task = Throw KeyError) /\
  (forall tasks, od_get (year task) (_schedule s) = Some tasks ->
     (~ (- Z.of_nat (length tasks) <= ensemble_member task
           < Z.of_nat (length tasks)) ->
      update_task_status s task = Throw IndexError) /\
     (- Z.of_nat (length tasks) <= ensemble_member task
        < Z.of_nat (length tasks) ->
      (_status task ∉ STATUSES.*1 ->
       update_task_status s task =
         Throw (Exception ("Status " +:+ _status task +:+ " not recognised"))) /\
      (_status task ∈ STATUSES.*1 ->
       exists s', update_task_status s task = Return s'))).
Proof.
  split.
  - intros Hy. unfold update_task_status, dict_item. by rewrite Hy.
  - intros tasks Hy. split.
    + intros Hout. unfold update_task_status, dict_item. rewrite Hy. simpl.
      destruct (position tasks (ensemble_member task)) as [i|] eqn:Hi; [|done].
      destruct Hout. apply position_Some. by rewrite Hi.
    + intros [i Hi]%position_Some. split.
      * intros Hst. apply position_lt in Hi as Hlt.
        destruct (lookup_lt_is_Some_2 tasks i Hlt) as [target Htarget].
        unfold update_task_status, dict_item, list_item. rewrite Hy. simpl.
        rewrite Hi. simpl. rewrite Htarget. simpl.
        unfold set_status. by rewrite decide_False.
      * intros Hst.
        destruct (update_task_status_Return s task tasks i Hy Hi Hst)
          as (target & _ & ->). by eexists.
Qed.

Lemma update_task_status_inv s task s' :
  update_task_status s task = Return s' ->
  exists tasks i target,
    od_get (year task) (_schedule s) = Some tasks /\
    position tasks (ensemble_member task) = Some i /\
    tasks !! i = Some target /\
    _status task ∈ STATUSES.*1 /\
    s' = mkSchedule (start_year s) (end_year s) (num_ensemble_members s)
           (od_set (year task)
              (<[i := mkTask (year target) (ensemble_member target)
                             (_task target) (_status task)]> tasks)
              (_schedule s)).
Proof.
  intros Hup.
  destruct (od_get (year task) (_schedule s)) as [tasks|] eqn:Hy;
    [|by unfold update_task_status, dict_item in Hup; rewrite Hy in Hup].
  destruct (position tasks (ensemble_member task)) as [i|] eqn:Hi;
    [|by unfold update_task_status, dict_item in Hup; rewrite Hy in Hup;
         simpl in Hup; rewrite Hi in Hup].
  destruct (decide (_status task ∈ STATUSES.*1)) as [Hst|Hst].
  - destruct (update_task_status_Return s task tasks i Hy Hi Hst)
      as (target & Ht & Heq). rewrite Heq in Hup. injection Hup as <-.
    by exists tasks, i, target.
  - apply position_lt in Hi as Hlt.
    destruct (lookup_lt_is_Some_2 tasks i Hlt) as [target Htarget].
    unfold update_task_status, dict_item, list_item in Hup.
    rewrite Hy in Hup. simpl in Hup. rewrite Hi in Hup. simpl in Hup.
    rewrite Htarget in Hup. simpl in Hup. unfold set_status in Hup.
    by rewrite decide_False in Hup.
Qed.

(* the cells of a schedule after an update *)
Lemma task_at_updated s c0 tasks (i : nat) (t' : PyroTask) c :
  od_get c0.1 (_schedule s) = Some tasks ->
  position tasks c0.2 = Some i -> 0 <= c0.2 -> 0 <= c.2 ->
  task_at (mkSchedule (start_year s) (end_year s) (num_ensemble_members s)
             (od_set c0.1 (<[i := t']> tasks) (_schedule s))) c =
    if decide (c = c0) then Return t' else task_at s c.
Proof.
  intros Hy Hi H0 Hc. unfold task_at, dict_item. simpl. rewrite od_get_set.
  rewrite position_nonneg in Hi by done. case_decide as Hlt; [|done].
  injection Hi as <-.
  destruct (decide (c.1 = c0.1)) as [Heq|Hne]; simpl.
  - rewrite Heq, Hy. simpl. unfold list_item.
    rewrite !position_nonneg by done. rewrite length_insert.
    destruct (decide (c.2 < Z.of_nat (length tasks))); simpl.
    + destruct (decide (c = c0)) as [->|Hcne].
      * rewrite list_lookup_insert_eq by lia. done.
      * rewrite list_lookup_insert_ne; [done|].
        intros Hto. apply Hcne. destruct c, c0; simpl in *. f_equal; lia.
    + rewrite decide_False; [done|]. intros ->. lia.
  - rewrite decide_False; [done|]. by intros ->.
Qed.

(** X18: a status that was recorded is read back.  After a successful
    [update_task_status] for a task with a non-negative ensemble member, the
    cell of that year and member holds the task it held, with the reported
    status; every other cell and the bounds of the schedule are as they
    were. *)
Theorem update_task_status_then_read_back s task s' :
  update_task_status s task = Return s' ->
  0 <= ensemble_member task ->
  (exists t, task_at s (year task, ensemble_member task) = Return t /\
     task_at s' (year task, ensemble_member task) =
       Return (mkTask (year t) (ensemble_member t) (_task t) (_status task))) /\
  (forall c, 0 <= c.2 -> c <> (year task, ensemble_member task) ->
     task_at s' c = task_at s c) /\
  cells s' = cells s.
Proof.
  intros (tasks & i & target & Hy & Hi & Ht & _ & ->)%update_task_status_inv
         Hem.
  split_and!.
  - exists target. split.
    + unfold task_at, dict_item, list_item. simpl. rewrite Hy. simpl.
      rewrite Hi. simpl. by rewrite Ht.
    + rewrite (task_at_updated s (year task, ensemble_member task))
        by done. by rewrite decide_True.
  - intros c Hc Hne.
    rewrite (task_at_updated s (year task, ensemble_member task)) by done.
    by rewrite decide_False.
  - done.
Qed.

(** X19: a negative ensemble member addresses the list of its year from the
    end, as Python lists do: for a member between minus the length of the
    list and -1, [update_task_status] does what it does for that member plus
    the length. *)
Theorem update_task_status_negative_member s task tasks :
  od_get (year task) (_schedule s) = Some tasks ->
  - Z.of_nat (length tasks) <= ensemble_member task < 0 ->
  update_task_status s task =
    update_task_status s
      (mkTask (year task) (Z.of_nat (length tasks) + ensemble_member task)
              (_task task) (_status task)).
Proof.
  intros Hy Hem. unfold update_task_status, dict_item, list_item. simpl.
  rewrite Hy. simpl.
  assert (position tasks (ensemble_member task) =
          position tasks (Z.of_nat (length tasks) + ensemble_member task))
    as <-; [|done].
  unfold position. rewrite (decide_False (P := 0 <= ensemble_member task < _))
    by lia.
  rewrite (decide_True (P := - _ <= ensemble_member task < 0)) by lia.
  by rewrite (decide_True (P := 0 <= _ + ensemble_member task < _)) by lia.
Qed.

Lemma first_outstanding_found s (cs : list (Z * Z)) t :
  first_outstanding s cs = Return (Some t) ->
  exists c, c ∈ cs /\ task_at s c = Return t /\
    _status t = "outstanding"%string.
Proof.
  induction cs as [|c cs IH]; simpl; [done|].
  destruct (task_at s c) as [t0|] eqn:Ht0; simpl; [|done].
  destruct (decide (_status t0 = "outstanding"%string)) as [Hs|Hs].
  - intros [= <-]. exists c. split_and!; [left|done..].
  - intros (c' & Hin & Hc')%IH. exists c'. split; [by right | done].
Qed.

Lemma task_at_inv s c t :
  task_at s c = Return t -> 0 <= c.2 ->
  exists tasks,
    od_get c.1 (_schedule s) = Some tasks /\
    position tasks c.2 = Some (Z.to_nat c.2) /\
    tasks !! Z.to_nat c.2 = Some t.
Proof.
  unfold task_at, dict_item, list_item. intros Ht Hc.
  destruct (od_get c.1 (_schedule s)) as [tasks|]; simpl in Ht; [|done].
  exists tasks. split; [done|]. rewrite position_nonneg in * by done.
  case_decide; simpl in Ht; [|done].
  split; [done|]. by destruct (tasks !! Z.to_nat c.2); simplify_eq.
Qed.

Lemma filter_agree {A} (P Q : A -> Prop) `{!forall x, Decision (P x)}
    `{!forall x, Decision (Q x)} (l : list A) :
  (forall x, x ∈ l -> P x <-> Q x) -> filter P l = filter Q l.
Proof.
  induction l as [|x l IH]; intros Hpq; [done|].
  rewrite !filter_cons. rewrite IH by (intros x' ?; apply Hpq; by right).
  destruct (decide (P x)) as [Hp|Hp], (decide (Q x)) as [Hq|Hq]; try done.
  - destruct Hq. by apply (Hpq x); [left|].
  - destruct Hp. by apply (Hpq x); [left|].
Qed.

(* one element fewer passes the filter when it alone stops passing *)
Lemma filter_length_drop {A} (P Q : A -> Prop) `{!forall x, Decision (P x)}
    `{!forall x, Decision (Q x)} (l : list A) (x0 : A) :
  NoDup l -> x0 ∈ l -> P x0 -> ~ Q x0 ->
  (forall x, x ∈ l -> x <> x0 -> P x <-> Q x) ->
  length (filter P l) = S (length (filter Q l)).
Proof.
  induction 1 as [|x l Hx Hnd IH]; intros Hin Hp Hq Hpq;
    [by apply elem_of_nil in Hin|].
  rewrite !filter_cons. apply elem_of_cons in Hin as [<-|Hin].
  - rewrite decide_True, decide_False by done. simpl. f_equal. f_equal.
    apply filter_agree. intros x' Hx'. apply Hpq; [by right|]. by intros ->.
  - assert (x <> x0) as Hne by (by intros ->).
    assert (length (filter P l) = S (length (filter Q l))) as IH'.
    { apply IH; [done..|]. intros x' ? ?. apply Hpq; [by right | done]. }
    destruct (decide (P x)) as [Hpx|Hpx], (decide (Q x)) as [Hqx|Hqx];
      simpl; rewrite ?IH'; try done.
    + destruct Hqx. by apply (Hpq x); [left| |].
    + destruct Hpx. by apply (Hpq x); [left| |].
Qed.

(** X20: a task handed out and reported back is not handed out again.  In a
    schedule whose cells hold the tasks of their year and member, recording
    for the next outstanding task any status other than 'outstanding'
    succeeds, keeps the schedule in that shape, leaves one outstanding task
    fewer, and lets the next hand-out come from another cell. *)
Theorem reported_task_is_not_handed_out_again s t (st : string) :
  well_formed s ->
  get_next_outstanding s = Return (Some t) ->
  st ∈ STATUSES.*1 -> st <> "outstanding"%string ->
  exists s',
    update_task_status s (mkTask (year t) (ensemble_member t) (_task t) st) =
      Return s' /\
    well_formed s' /\
    count_outstanding s = S (count_outstanding s') /\
    forall t2, get_next_outstanding s' = Return (Some t2) ->
      (year t2, ensemble_member t2) <> (year t, ensemble_member t).
Proof.
  intros Hwf (c0 & Hc0 & Ht & Hout)%first_outstanding_found Hst Hne.
  destruct (Hwf c0 Hc0) as (t' & Ht' & Hy & Hem). rewrite Ht in Ht'.
  injection Ht' as <-.
  apply elem_of_cells in Hc0 as Hbounds. destruct Hbounds as [_ [H0 _]].
  destruct (task_at_inv s c0 t Ht H0) as (tasks & Htasks & Hpos & Hlook).
  set (task := mkTask (year t) (ensemble_member t) (_task t) st).
  destruct (update_task_status_Return s task tasks (Z.to_nat c0.2))
    as (target & Htarget & Hup); simpl; rewrite ?Hy, ?Hem; [done..|].
  rewrite Hlook in Htarget. injection Htarget as <-. simpl in Hup.
  eexists. split; [exact Hup|].
  set (s' := mkSchedule _ _ _ _) in *.
  assert (forall c, c ∈ cells s ->
            task_at s' c = if decide (c = c0) then Return task
                           else task_at s c) as Hat.
  { intros c [_ [Hc _]]%elem_of_cells. unfold s', task. rewrite Hy.
    by rewrite (task_at_updated s c0). }
  assert (cells s' = cells s) as Hcells by done.
  split_and!.
  - intros c Hc. rewrite Hcells in Hc. rewrite (Hat c Hc).
    destruct (decide (c = c0)) as [->|]; [by exists task | by apply Hwf].
  - unfold count_outstanding. rewrite Hcells.
    apply (filter_length_drop _ _ _ c0); [apply NoDup_cells|done| | |].
    + by exists t.
    + intros (t2 & Ht2 & Hs2). rewrite (Hat c0 Hc0), decide_True in Ht2 by done.
      injection Ht2 as <-. done.
    + intros c Hc Hcne. unfold is_outstanding.
      by rewrite (Hat c Hc), decide_False.
  - intros t2 (c2 & Hc2 & Ht2 & Hs2)%first_outstanding_found.
    rewrite Hcells in Hc2. rewrite (Hat c2 Hc2) in Ht2.
    destruct (decide (c2 = c0)) as [->|Hc2ne].
    + injection Ht2 as <-. done.
    + destruct (Hwf c2 Hc2) as (t2' & Ht2' & Hy2 & Hem2).
      rewrite Ht2 in Ht2'. injection Ht2' as <-.
      rewrite Hy2, Hem2, ?Hy, ?Hem. intros Heq. apply Hc2ne.
      destruct c2, c0. simpl in *. congruence.
Qed.

Lemma filter_all {A} (l : list A) : filter (fun _ => True) l = l.
Proof. induction l as [|x l IH]; [done|]. by rewrite filter_cons_True, IH. Qed.

(* a fresh schedule is in shape, with every task outstanding *)
Lemma fresh_schedule_well_formed (a b n : Z) s :
  PyroTaskSchedule_init a b n = Return s ->
  well_formed s /\ count_outstanding s = length (cells s).
Proof.
  unfold PyroTaskSchedule_init.
  rewrite schedule_from; [|apply NoDup_seqZ|by intros y _ ?%elem_of_nil].
  intros [= <-].
  assert (forall c, c ∈ cells (mkSchedule a b n
              ((fun y => (y, fresh_task y <$> range 0 n)) <$> range a (b + 1))) ->
            task_at (mkSchedule a b n
              ((fun y => (y, fresh_task y <$> range 0 n)) <$> range a (b + 1))) c
            = Return (fresh_task c.1 c.2)) as Hat.
  { intros c [Hy Hem]%elem_of_cells. by apply fresh_task_at. }
  split.
  - intros c Hc. exists (fresh_task c.1 c.2). by rewrite (Hat c Hc).
  - unfold count_outstanding. f_equal.
    rewrite (filter_agree _ (fun _ => True)); [|].
    + apply filter_all.
    + intros c Hc. split; [done|]. intros _. exists (fresh_task c.1 c.2).
      by rewrite (Hat c Hc).
Qed.

Lemma string_app_cons (a : Ascii.ascii) (x y : string) :
  String a x +:+ y = String a (x +:+ y).
Proof. reflexivity. Qed.

Lemma string_app_nil_l (y : string) : ""%string +:+ y = y.
Proof. reflexivity. Qed.

Lemma string_app_nil_r (x : string) : x +:+ "" = x.
Proof.
  induction x as [|a x IH]; [done|]. by rewrite string_app_cons, IH.
Qed.

Lemma string_app_assoc (x y z : string) : (x +:+ y) +:+ z = x +:+ y +:+ z.
Proof.
  induction x as [|a x IH]; [done|]. by rewrite !string_app_cons, IH.
Qed.

Lemma string_length_app (s1 s2 : string) :
  String.length (s1 +:+ s2) = (String.length s1 + String.length s2)%nat.
Proof.
  induction s1 as [|a s1 IH]; [done|].
  rewrite string_app_cons. simpl. by rewrite IH.
Qed.

Lemma string_concat_cons (x : string) (l : list string) :
  String.concat "" (x :: l) = x +:+ String.concat "" l.
Proof.
  destruct l as [|x' l]; [|done]. simpl. by rewrite string_app_nil_r.
Qed.

Lemma string_concat_app (l1 l2 : list string) :
  String.concat "" (l1 ++ l2) = String.concat "" l1 +:+ String.concat "" l2.
Proof.
  induction l1 as [|x l1 IH]; [done|].
  rewrite <- app_comm_cons, !string_concat_cons, IH.
  by rewrite string_app_assoc.
Qed.

Lemma status_symbol_length (status c : string) :
  status_symbol status = Return c -> String.length c = 1%nat.
Proof.
  unfold status_symbol, STATUSES. simpl.
  repeat (case_decide; [by intros [= <-]|]). done.
Qed.

(* the loop of [get_progress_for_year] appends one symbol per task *)
Lemma progress_symbols (tasks : list PyroTask) (acc p : list string) :
  loop (fun progress task => sym ← status_symbol (_status task);
                             mret (progress ++ [sym])) tasks acc = Return p ->
  exists syms,
    p = acc ++ syms /\
    Forall2 (fun t sym => status_symbol (_status t) = Return sym) tasks syms.
Proof.
  revert acc. induction tasks as [|t tasks IH]; intros acc; simpl.
  - intros [= <-]. exists []. by rewrite app_nil_r.
  - destruct (status_symbol (_status t)) as [sym|] eqn:Hc; simpl; [|done].
    intros (syms & -> & Hall)%IH. exists (sym :: syms).
    split; [by rewrite <- (assoc_L (++))|]. by constructor.
Qed.

Lemma symbols_length (tasks : list PyroTask) (syms : list string) :
  Forall2 (fun t sym => status_symbol (_status t) = Return sym) tasks syms ->
  String.length (String.concat "" syms) = length tasks.
Proof.
  induction 1 as [|t sym tasks syms Hc _ IH]; [done|].
  rewrite string_concat_cons, string_length_app, IH.
  by rewrite (status_symbol_length _ _ Hc).
Qed.

(** X21: the progress line of a year shows one symbol per task of that year,
    in order of ensemble member, each the STATUSES symbol of the task's
    status, after the label of the year when it is asked for; its length
    without the label is the number of tasks. *)
Theorem progress_line_has_one_symbol_per_task s y (include_year : bool)
    (p : string) :
  get_progress_for_year s y include_year = Return p ->
  exists tasks syms,
    od_get y (_schedule s) = Some tasks /\
    Forall2 (fun t sym => status_symbol (_status t) = Return sym) tasks syms /\
    p = (if include_year then year_label y else ""%string)
          +:+ String.concat "" syms /\
    String.length (String.concat "" syms) = length tasks.
Proof.
  unfold get_progress_for_year, dict_item.
  destruct (od_get y (_schedule s)) as [tasks|]; simpl; [|done].
  destruct (loop _ tasks _) as [progress|] eqn:Hloop; simpl; [|done].
  intros [= <-]. apply progress_symbols in Hloop as (syms & -> & Hsyms).
  exists tasks, syms. split_and!; [done..| |by apply symbols_length].
  rewrite string_concat_app. by destruct include_year.
Qed.

(* the loop of [get_progress] appends a line and a newline per year *)
Lemma progress_lines s (include_year : bool) (ys : list Z)
    (acc p : list string) :
  loop (fun progress y => line ← get_progress_for_year s y include_year;
                          mret (progress ++ [line; newline])) ys acc =
    Return p ->
  exists lines,
    Forall2 (fun y line => get_progress_for_year s y include_year = Return line)
            ys lines /\
    p = acc ++ (lines ≫= fun line => [line; newline]).
Proof.
  revert acc. induction ys as [|y ys IH]; intros acc; simpl.
  - intros [= <-]. exists []. by rewrite app_nil_r.
  - destruct (get_progress_for_year s y include_year) as [line|] eqn:Hline;
      simpl; [|done].
    intros (lines & Hall & ->)%IH. exists (line :: lines).
    split; [by constructor|]. csimpl. by rewrite <- (assoc_L (++)).
Qed.

Lemma string_concat_lines (lines : list string) :
  String.concat "" (lines ≫= fun line => [line; newline]) =
  String.concat "" ((fun line => line +:+ newline) <$> lines).
Proof.
  induction lines as [|line lines IH]; [done|].
  rewrite bind_cons, fmap_cons, <- !app_comm_cons, app_nil_l.
  rewrite !string_concat_cons, IH. by rewrite string_app_assoc.
Qed.

(** X22: the progress report has one line per requested year, in the order
    asked for, each the progress line of its year followed by a newline; when
    no years are given, or an empty list, the years are those of the
    schedule, from [start_year] to [end_year]. *)
Theorem progress_report_has_one_line_per_year s (years : option (list Z))
    (include_year : bool) (p : string) :
  get_progress s years include_year = Return p ->
  exists lines,
    Forall2 (fun y line => get_progress_for_year s y include_year = Return line)
            (match years with
             | None | Some [] => range (start_year s) (end_year s + 1)
             | Some ys => ys
             end) lines /\
    p = String.concat "" ((fun line => line +:+ newline) <$> lines).
Proof.
  unfold get_progress.
  destruct (loop _ _ []) as [progress|] eqn:Hloop; simpl; [|done].
  intros [= <-]. apply progress_lines in Hloop as (lines & Hall & ->).
  exists lines. split; [done|]. apply string_concat_lines.
Qed.

End PyroFacts.

(** * The properties on the sample data *)

Module SampleRuns.
Import PrimFloat FloatNum Sample.

Lemma index_is_consistent : index_consistent index.
Proof.
  intros d vts vt Hd Hvt. unfold index in Hd. simpl in Hd.
  repeat (apply lookup_insert_Some in Hd as [[<- <-]|[_ Hd]];
          [apply list_elem_of_singleton in Hvt as ->;
           split; [done | by eexists]|]).
  by rewrite lookup_empty in Hd.
Qed.

Lemma pair_shares_a_date : share_a_date index [0%nat] 0%nat 0%nat.
Proof.
  exists (0%float, (0%float, 1)), [0%nat].
  split_and!; [left | left | reflexivity | left].
Qed.

(** The sample pair (0, 0) shares three dates. *)
Lemma match_overlap_counts_joint_visits_sample :
  exists ms m,
    match_ index [0%nat] = Ok ms /\
    filter (fun kv => kv.1 = (0%nat, 0%nat)) ms = [((0%nat, 0%nat), m)] /\
    overlap m = 3.
Proof.
  destruct (match_overlap_counts_joint_visits index [0%nat] 0%nat 0%nat
              index_is_consistent pair_shares_a_date)
    as (ms & m & Hrun & Hfilter & Hoverlap).
  exists ms, m. split_and!; [done..|]. exact Hoverlap.
Defined.

(** C2, refuted as stated: best track 1 has zero observations, and the
    engine, far from raising, returns an empty mapping. *)
Lemma empty_reference_track_is_accepted :
  observations (Num:=float) 1%nat = [] /\ match_ index [1%nat] = Ok [].
Proof. split; reflexivity. Qed.

Lemma zero_observation_tracks_not_rejected_sample :
  match_ index [1%nat] = Ok [] /\
  match_ index [0%nat; 1%nat; 2%nat] = match_ index [0%nat; 2%nat] /\
  visit 2%nat 0%float 0%float 5 [] 2%nat = Raise IndexError.
Proof.
  destruct (zero_observation_tracks_not_rejected
              (Num:=float) (BestTrack:=nat) (VortTrack:=nat))
    as (Halone & Hamong & Hcand).
  split_and!.
  - apply Halone. reflexivity.
  - apply (Hamong index [0%nat] [2%nat] 1%nat). reflexivity.
  - apply Hcand; reflexivity.
Defined.


Lemma pair_visits_sample :
  pair_visits index [2%nat; 0%nat] 2%nat 1%nat =
    [mkVisit 2%nat 0%float 0%float 5 1%nat].
Proof. reflexivity. Qed.

(** The flag on the sample data: the pair (0, 0) stays within the cutoff,
    the pair (2, 1) is 200 apart on its single date. *)
Lemma flag_set_iff_cutoff_exceeded_sample :
  (exists ms m,
     match_ index [2%nat; 0%nat] = Ok ms /\
     od_get (0%nat, 0%nat) ms = Some m /\ is_too_far_away m = false) /\
  (exists ms m,
     match_ index [2%nat; 0%nat] = Ok ms /\
     od_get (2%nat, 1%nat) ms = Some m /\
     overlap m = 1 /\ cum_dist m = 200%float /\ is_too_far_away m = true).
Proof.
  destruct flag_set_iff_cutoff_exceeded as [Hiff Hscenario]. split.
  - destruct (Hiff float nat nat _ _ _ _ _ _ index [2%nat; 0%nat] 0%nat 0%nat
                [0%float; 0.5%float; 0%float] index_is_consistent)
      as (ms & m & Hrun & Hget & Hflag); [reflexivity|done|].
    exists ms, m. split_and!; [done..|].
    apply not_true_is_false. intros (k & Hk & Hgt)%Hflag. simpl in Hk.
    destruct k as [|[|[|k]]]; [by vm_compute in Hgt..|lia].
  - apply (Hscenario nat nat _ _ _ _ _ index [2%nat; 0%nat] 2%nat 1%nat
             (mkVisit 2%nat 0%float 0%float 5 1%nat) index_is_consistent);
      reflexivity.
Defined.

(** Regrouping one engine run over the three sample best tracks. *)
Lemma combined_match_regroups_sample :
  exists out cm,
    match_ index [0%nat; 1%nat; 2%nat] = Ok out /\
    combined_match [0%nat; 1%nat; 2%nat] [od_values out] = Ok cm /\
    cm !! 1%nat = Some [] /\
    flatten cm ≡ₚ od_values out.
Proof.
  destruct (match_ index [0%nat; 1%nat; 2%nat]) as [out|e] eqn:Hrun;
    [|by vm_compute in Hrun].
  destruct (combined_match_regroups [index] [0%nat; 1%nat; 2%nat] [out])
    as (cm & Hcm & Hkeys & _ & Hflat); [by repeat constructor|].
  exists out, cm. split_and!; [done..| |].
  - rewrite Hkeys by (right; left). f_equal.
    vm_compute in Hrun. by injection Hrun as <-.
  - rewrite Hflat. csimpl. by rewrite app_nil_r.
Defined.

(** C6, refuted as stated: on the sample pair (3, 3) the search finds the
    optimum (0.75, 0.25, smoothed) and the ratio 0.0625, and the call returns
    None; both are only printed. *)
Lemma optimize_returns_None_sample :
  _optimize 3%nat 3%nat =
    Ok (PyNone,
        [baseline_line 24%float;
         new_optimum_line (0.75%float, 0.5%float, smoothed);
         min_dist_line 6%float;
         new_optimum_line (0.75%float, 0.25%float, smoothed);
         min_dist_line 1.5%float;
         ratio_line 0.0625%float]).
Proof. reflexivity. Qed.

Lemma optimize_prints_and_returns_None_sample :
  exists st,
    search 3%nat 3%nat (vortmaxes 3%nat) (0%float, 2%float)
           (initial_state 3%nat 3%nat) = Ok st /\
    optimum_param st = Some (0.75%float, 0.25%float, smoothed) /\
    last_optimum_printed (stdout st) = optimum_param st /\
    _optimize 3%nat 3%nat = Ok (PyNone, stdout st ++ [ratio_line 0.0625%float]).
Proof.
  destruct (optimize_prints_and_returns_None 3%nat 3%nat (0%float, 2%float))
    as (st & Hsearch & Hprinted & Hopt); [reflexivity| |].
  { intros q r. split; simpl; lia. }
  exists st. split_and!; [done| |done|].
  - vm_compute in Hsearch. by injection Hsearch as <-.
  - rewrite Hopt. vm_compute in Hsearch. by injection Hsearch as <-.
Defined.

(** Best track 0 and vorticity track 0 overlap on three dates only. *)
Lemma no_optimum_below_six_overlapping_dates_sample :
  exists st',
    search 0%nat 0%nat (vortmaxes 0%nat) (0%float, 0%float)
           (initial_state 0%nat 0%nat) = Ok st' /\
    optimum_param st' = None /\ min_d st' = 0.25%float.
Proof.
  destruct (no_optimum_below_six_overlapping_dates
              0%nat 0%nat (vortmaxes 0%nat) (0%float, 0%float)) as [_ Hrun].
  destruct (grid_states 0%nat 0%nat (vortmaxes 0%nat) (0%float, 0%float)
              (initial_state 0%nat 0%nat)) as [tr|e] eqn:Htr;
    [|by vm_compute in Htr].
  destruct (Hrun tr eq_refl) as (st' & Hsearch & Hopt & Hmin).
  { vm_compute in Htr. injection Htr as <-. by repeat constructor. }
  exists st'. split_and!; [done..|]. exact Hmin.
Defined.


(** The window of the sample pair (0, 0), and a repeat visit of the flagged
    pair (2, 1). *)
Lemma overlap_window_fixed_at_construction_sample :
  (exists m, Match_init (Num:=float) 0%nat 0%nat = Ok m /\
     overlap_start m = 1 /\ overlap_end m = 3) /\
  (exists ms' m',
     visit 2%nat 0%float 0%float 5 flagged_matches 1%nat = Ok ms' /\
     od_get (2%nat, 1%nat) ms' = Some m' /\
     overlap_start m' = 5 /\ overlap_end m' = 5).
Proof.
  destruct (overlap_window_fixed_at_construction
              (Num:=float) (BestTrack:=nat) (VortTrack:=nat))
    as (Hinit & Hframe & _).
  split.
  - destruct (Hinit 0%nat 0%nat 1 1 3 3) as (m & Hm & _ & _ & Hs & He);
      [reflexivity..|].
    by exists m.
  - destruct (visit 2%nat 0%float 0%float 5 flagged_matches 1%nat)
      as [ms'|e] eqn:Hv; [|by vm_compute in Hv].
    destruct (Hframe flagged_matches 2%nat 0%float 0%float 5 1%nat ms'
                (2%nat, 1%nat) (mkMatch 2%nat 1%nat 200%float 1 true 5 5))
      as (m' & Hget & _ & _ & Hs & He); [reflexivity|done|].
    by exists ms', m'.
Defined.

(** The Matches of the sample run have overlaps 3 and 1. *)
Lemma engine_matches_have_positive_overlap_sample :
  exists ms,
    match_ index [0%nat; 2%nat] = Ok ms /\
    Forall (fun km => 1 <= overlap km.2 /\ is_Ok (av_dist km.2)) ms.
Proof.
  destruct (match_ index [0%nat; 2%nat]) as [ms|e] eqn:Hrun;
    [|by vm_compute in Hrun].
  exists ms. split; [done|]. apply Forall_forall. intros [k m] Hin.
  destruct (engine_matches_have_positive_overlap index [0%nat; 2%nat] ms
              Hrun k m Hin) as [Hpos Hav].
  split; [done|]. by eexists.
Defined.

End SampleRuns.

(** * The further properties on the sample data *)

Module MoreRuns.
Import PrimFloat FloatNum Sample.

Lemma match_has_pair_iff_share_a_date_sample :
  exists ms, match_ index [0%nat] = Ok ms /\ is_Some (od_get (0%nat, 0%nat) ms).
Proof.
  destruct (match_ index [0%nat]) as [ms|e] eqn:Hrun; [|by vm_compute in Hrun].
  exists ms. split; [done|].
  apply (match_has_pair_iff_share_a_date index [0%nat] ms 0%nat 0%nat Hrun).
  exact SampleRuns.pair_shares_a_date.
Defined.

Lemma match_cum_dist_is_sum_of_visit_distances_sample :
  exists ms m ds,
    match_ index [0%nat] = Ok ms /\ od_get (0%nat, 0%nat) ms = Some m /\
    mapM visit_dist (pair_visits index [0%nat] 0%nat 0%nat) = Some ds /\
    cum_dist m = foldl num_add (num_of_int 0) ds /\ length ds = 3%nat.
Proof.
  destruct (match_ index [0%nat]) as [ms|e] eqn:Hrun; [|by vm_compute in Hrun].
  destruct (od_get (0%nat, 0%nat) ms) as [m|] eqn:Hget;
    [|by vm_compute in Hrun; injection Hrun as <-].
  destruct (match_cum_dist_is_sum_of_visit_distances index [0%nat] ms
              0%nat 0%nat m Hrun Hget) as (ds & Hds & Hcd & _).
  exists ms, m, ds. split_and!; [done..|].
  vm_compute in Hds. by injection Hds as <-.
Defined.

Lemma visit_touches_only_its_pair_sample :
  exists ms',
    visit 0%nat 0%float 0%float 1 flagged_matches 0%nat = Ok ms' /\
    od_get (2%nat, 1%nat) ms' = od_get (2%nat, 1%nat) flagged_matches /\
    od_keys ms' = [(2%nat, 1%nat); (0%nat, 0%nat)].
Proof.
  destruct (visit 0%nat 0%float 0%float 1 flagged_matches 0%nat)
    as [ms'|e] eqn:Hv; [|by vm_compute in Hv].
  destruct (visit_touches_only_its_pair flagged_matches 0%nat 0%float 0%float
              1 0%nat ms' Hv) as (Hothers & _ & Hkeys).
  exists ms'. split_and!; [done| |exact Hkeys].
  by apply Hothers.
Defined.

Lemma match_keys_in_first_visit_order_sample :
  exists ms,
    match_ index [2%nat; 0%nat] = Ok ms /\ NoDup (od_keys ms) /\
    od_keys ms = [(2%nat, 1%nat); (0%nat, 0%nat)] /\
    exists a, (jv_key <$> joint_visits index [2%nat; 0%nat]) !! a
                = Some (2%nat, 1%nat) /\
      forall b, (jv_key <$> joint_visits index [2%nat; 0%nat]) !! b
                  = Some (0%nat, 0%nat) -> (a < b)%nat.
Proof.
  destruct (match_ index [2%nat; 0%nat]) as [ms|e] eqn:Hrun;
    [|by vm_compute in Hrun].
  destruct (match_keys_in_first_visit_order index [2%nat; 0%nat] ms Hrun)
    as [Hnd Hord].
  assert (od_keys ms = [(2%nat, 1%nat); (0%nat, 0%nat)]) as Hkeys
    by (vm_compute in Hrun; by injection Hrun as <-).
  exists ms. split_and!; [done..|].
  apply (Hord 0%nat 1%nat); rewrite ?Hkeys; [done..|lia].
Defined.

Lemma overlap_window_contains_common_dates_sample :
  exists m, Match_init (Num:=float) 0%nat 0%nat = Ok m /\
    overlap_start m <= 2 <= overlap_end m.
Proof.
  destruct (Match_init (Num:=float) 0%nat 0%nat) as [m|e] eqn:Hm;
    [|by vm_compute in Hm].
  exists m. split; [done|].
  apply (overlap_window_contains_common_dates 0%nat 0%nat m 2 Hm).
  - repeat constructor; lia.
  - repeat constructor; lia.
  - right; left.
  - right; left.
Defined.

Lemma search_overlap_is_baseline_overlap_sample :
  exists tr,
    grid_states 3%nat 3%nat (vortmaxes 3%nat) (0%float, 2%float)
                (initial_state 3%nat 3%nat) = Ok tr /\
    length tr = 2%nat /\
    Forall (fun st => recomputed_overlap 3%nat st = 6) tr.
Proof.
  destruct (grid_states 3%nat 3%nat (vortmaxes 3%nat) (0%float, 2%float)
              (initial_state 3%nat 3%nat)) as [tr|e] eqn:Htr;
    [|by vm_compute in Htr].
  exists tr. split_and!; [done| |].
  - vm_compute in Htr. by injection Htr as <-.
  - exact (search_overlap_is_baseline_overlap 3%nat 3%nat _ _ tr Htr).
Defined.

Lemma optimize_below_six_dates_prints_baseline_only_sample :
  _optimize 0%nat 0%nat =
    Ok (PyNone, [baseline_line 0.25%float; ratio_line 1%float]).
Proof.
  rewrite (optimize_below_six_dates_prints_baseline_only
             0%nat 0%nat (0%float, 0%float)); [reflexivity..|].
  intros q r. split; simpl; lia.
Defined.

Lemma index_lists_track_0_on_its_dates (d : Z) :
  length (filter (fun v => v = 0%nat) (default [] (index !! d))) =
  if decide (d ∈ od_keys (vortmax_by_date (Num:=float) 0%nat))
  then 1%nat else 0%nat.
Proof.
  unfold index. simpl.
  destruct (decide (d = 1)) as [->|?]; [done|]. rewrite lookup_insert_ne by done.
  destruct (decide (d = 2)) as [->|?]; [done|]. rewrite lookup_insert_ne by done.
  destruct (decide (d = 3)) as [->|?]; [done|]. rewrite lookup_insert_ne by done.
  destruct (decide (d = 5)) as [->|?]; [done|]. rewrite lookup_insert_ne by done.
  rewrite lookup_empty. simpl. rewrite decide_False; [done|].
  intros Hin. repeat (apply elem_of_cons in Hin as [?|Hin]; [done|]).
  by apply elem_of_nil in Hin.
Qed.

Lemma match_overlap_is_baseline_overlap_sample :
  exists ms m,
    match_ index [0%nat] = Ok ms /\ od_get (0%nat, 0%nat) ms = Some m /\
    overlap m = (_cum_dist 0%nat (vortmax_by_date 0%nat)).2 /\ overlap m = 3.
Proof.
  destruct (match_ index [0%nat]) as [ms|e] eqn:Hrun; [|by vm_compute in Hrun].
  destruct (od_get (0%nat, 0%nat) ms) as [m|] eqn:Hget;
    [|by vm_compute in Hrun; injection Hrun as <-].
  pose proof (match_overlap_is_baseline_overlap index 0%nat 0%nat ms m
                index_lists_track_0_on_its_dates Hrun Hget) as Hov.
  exists ms, m. split_and!; [done..|]. by rewrite Hov.
Defined.

Lemma combined_match_ignores_order_of_tracks_sample :
  combined_match [0%nat; 2%nat] [od_values flagged_matches] =
  combined_match [2%nat; 0%nat; 0%nat] [od_values flagged_matches].
Proof.
  apply combined_match_ignores_order_of_tracks.
  intros bt. rewrite !elem_of_cons. tauto.
Defined.

Lemma match_raises_iff_inconsistent_on_visited_dates_sample :
  is_Ok (match_ index [0%nat; 2%nat]) /\
  exists vts, broken_index !! 5 = Some vts /\ 2%nat ∈ vts /\
    vt_dates (Num:=float) 2%nat = [] /\ match_ broken_index [2%nat] = Raise IndexError.
Proof.
  split.
  - apply match_raises_iff_inconsistent_on_visited_dates.
    intros bt obs vts vt _ _ Hd Hvt.
    exact (SampleRuns.index_is_consistent _ _ _ Hd Hvt).
  - exists [2%nat]. split_and!; [reflexivity|left|reflexivity..].
Defined.

Lemma match_empty_iff_nothing_shared_sample :
  match_ index [1%nat] = Ok [].
Proof.
  apply match_empty_iff_nothing_shared.
  intros bt vt (obs & vts & Hbt & Hobs & _).
  apply list_elem_of_singleton in Hbt as ->. by apply elem_of_nil in Hobs.
Defined.

Lemma combined_match_needs_supplied_tracks_sample :
  is_Ok (combined_match [2%nat] [od_values flagged_matches]) /\
  combined_match [0%nat] [od_values flagged_matches] = Raise KeyError.
Proof.
  destruct (combined_match_needs_supplied_tracks [2%nat]
              [od_values flagged_matches]) as [Hok _].
  destruct (combined_match_needs_supplied_tracks [0%nat]
              [od_values flagged_matches]) as [_ Herr].
  split.
  - apply Hok. repeat constructor.
  - destruct (combined_match [0%nat] [od_values flagged_matches])
      as [cm|e] eqn:Hcm; [by vm_compute in Hcm|].
    by rewrite (Herr e eq_refl).
Defined.

End MoreRuns.

Module PyroRuns.
Import Pyro PyroFacts.

Lemma sample_schedule_is_fresh :
  PyroTaskSchedule_init 2000 2001 2 = Return sample_schedule.
Proof. reflexivity. Qed.

Lemma fresh_schedule_starts_with_first_task_sample :
  get_next_outstanding sample_schedule = Return (Some (fresh_task 2000 0)).
Proof.
  exact (fresh_schedule_starts_with_first_task 2000 2001 2 sample_schedule
           sample_schedule_is_fresh).
Defined.

Lemma update_task_status_then_read_back_sample :
  exists s',
    update_task_status sample_schedule
      (mkTask 2000 1 "vort_track" "working") = Return s' /\
    task_at s' (2000, 1) = Return (mkTask 2000 1 "vort_track" "working") /\
    task_at s' (2001, 1) = Return (fresh_task 2001 1).
Proof.
  destruct (update_task_status sample_schedule
              (mkTask 2000 1 "vort_track" "working")) as [s'|e] eqn:Hup;
    [|by vm_compute in Hup].
  destruct (update_task_status_then_read_back _ _ s' Hup)
    as ((t & Ht & Hread) & Hothers & _); [done|].
  exists s'. split_and!; [done| |].
  - simpl in Ht, Hread. vm_compute in Ht. injection Ht as <-. exact Hread.
  - by rewrite (Hothers (2001, 1)).
Defined.

Lemma update_task_status_negative_member_sample :
  update_task_status sample_schedule (mkTask 2001 (-1) "vort_track" "failure") =
  update_task_status sample_schedule (mkTask 2001 1 "vort_track" "failure").
Proof.
  exact (update_task_status_negative_member sample_schedule
           (mkTask 2001 (-1) "vort_track" "failure")
           [fresh_task 2001 0; fresh_task 2001 1] eq_refl
           ltac:(simpl; lia)).
Defined.

Lemma reported_task_is_not_handed_out_again_sample :
  exists s',
    update_task_status sample_schedule
      (mkTask 2000 0 "vort_track" "complete") = Return s' /\
    count_outstanding sample_schedule = S (count_outstanding s') /\
    get_next_outstanding s' = Return (Some (fresh_task 2000 1)).
Proof.
  destruct (reported_task_is_not_handed_out_again sample_schedule
              (fresh_task 2000 0) "complete")
    as (s' & Hup & _ & Hcount & _).
  - by apply (fresh_schedule_well_formed 2000 2001 2).
  - reflexivity.
  - right; right; left.
  - done.
  - exists s'. split_and!; [exact Hup|exact Hcount|].
    vm_compute in Hup. by injection Hup as <-.
Defined.

Lemma progress_line_has_one_symbol_per_task_sample :
  get_progress_for_year sample_schedule 2000 true = Return "2000: --"%string /\
  exists tasks syms,
    od_get 2000 (_schedule sample_schedule) = Some tasks /\
    String.length (String.concat "" syms) = length tasks.
Proof.
  split; [reflexivity|].
  destruct (progress_line_has_one_symbol_per_task sample_schedule 2000 true
              "2000: --" eq_refl) as (tasks & syms & Hget & _ & _ & Hlen).
  by exists tasks, syms.
Defined.

Lemma progress_report_has_one_line_per_year_sample :
  exists p lines,
    get_progress sample_schedule None false = Return p /\
    length lines = 2%nat /\
    p = String.concat "" ((fun line => line +:+ newline) <$> lines).
Proof.
  destruct (get_progress sample_schedule None false) as [p|e] eqn:Hp;
    [|by vm_compute in Hp].
  destruct (progress_report_has_one_line_per_year sample_schedule None false p
              Hp) as (lines & Hall & Heq).
  exists p, lines. split_and!; [done| |done].
  apply Forall2_length in Hall. by rewrite <- Hall.
Defined.

Lemma next_outstanding_is_first_in_order_sample :
  exists cs1 c cs2,
    cells sample_schedule = cs1 ++ c :: cs2 /\
    task_at sample_schedule c = Return (fresh_task 2000 0) /\
    forall c', c' ∈ cs1 -> ~ is_outstanding sample_schedule c'.
Proof.
  destruct (next_outstanding_is_first_in_order sample_schedule) as [Hsome _].
  destruct (Hsome (fresh_task 2000 0) eq_refl)
    as (cs1 & c & cs2 & Hcells & Ht & _ & Hbefore).
  by exists cs1, c, cs2.
Defined.

Lemma update_task_status_errors_sample :
  update_task_status sample_schedule (mkTask 1999 0 "vort_track" "working")
    = Throw KeyError /\
  update_task_status sample_schedule (mkTask 2000 2 "vort_track" "working")
    = Throw IndexError /\
  update_task_status sample_schedule (mkTask 2000 0 "vort_track" "done")
    = Throw (Exception "Status done not recognised").
Proof.
  split_and!.
  - by apply update_task_status_errors.
  - destruct (update_task_status_errors sample_schedule
                (mkTask 2000 2 "vort_track" "working")) as [_ Hrest].
    destruct (Hrest _ eq_refl) as [Hout _]. apply Hout. simpl. lia.
  - destruct (update_task_status_errors sample_schedule
                (mkTask 2000 0 "vort_track" "done")) as [_ Hrest].
    destruct (Hrest _ eq_refl) as [_ Hin].
    destruct Hin as [Hstatus _]; [simpl; lia|]. apply Hstatus.
    simpl. intros Hmem.
    repeat (apply elem_of_cons in Hmem as [?|Hmem]; [done|]).
    by apply elem_of_nil in Hmem.
Defined.

End PyroRuns.
